(** * Token-passing keyword spotter ([kws/keyword-spot.h])

    A shallow embedding of [KeywordSpot] and its [Token], and the properties
    of the decoder that follow from the code.

    Conventions of the embedding:
    - [float] is IEEE 754 binary32, round to nearest even, taken from the
      specification of floating-point numbers of the Standard Library
      ([SpecFloat] at precision 24 and maximal exponent 128);
    - [int] and [int32_t] are integers of [Z] kept in the 32-bit signed
      range by [wrap32] after every addition and subtraction;
    - a [std::vector] is a list read with [!!] and written with [<[_:=_]>];
      an access out of range, which C++ leaves undefined, is the result
      [Undefined];
    - a failed [CHECK] ends the process: the result [CheckFailed];
    - [logf] and [expf] come from the C library and are parameters. *)

From Stdlib Require Import ZArith Lia Floats.SpecFloat.
From stdpp Require Import base option list.

Local Open Scope Z_scope.

(** ** Results of fallible code *)

Inductive result (A : Type) : Type :=
  | Ok (a : A)
  | CheckFailed
  | Undefined.
Arguments Ok {A} a.
Arguments CheckFailed {A}.
Arguments Undefined {A}.

#[global] Instance result_ret : MRet result := @Ok.
#[global] Instance result_bind : MBind result := λ A B f m,
  match m with
  | Ok a => f a
  | CheckFailed => CheckFailed
  | Undefined => Undefined
  end.

(** Modelled from the spec: [utils.h] is not among the source files.
    [CHECK(b)] is a fatal assertion: it lets the call go on when [b] holds
    and ends the process otherwise. *)
Definition CHECK (b : bool) : result unit :=
  if b then Ok tt else CheckFailed.

(** [v[i]] on a vector, for an index the code holds in an [int]. *)
Definition at_index {A} (v : list A) (i : Z) : result A :=
  if i <? 0 then Undefined
  else match v !! Z.to_nat i with
       | Some a => Ok a
       | None => Undefined
       end.

(** ** Machine numbers *)

Definition wrap32 (z : Z) : Z := (z + 2 ^ 31) mod 2 ^ 32 - 2 ^ 31.

Definition INT_MAX : Z := 2 ^ 31 - 1.

Module F32.
Definition prec : Z := 24.
Definition emax : Z := 128.

Definition t : Type := spec_float.

Definition zero : t := S754_zero false.
Definition one : t := S754_finite false 8388608 (-23).
Definition half : t := S754_finite false 8388608 (-24).

Definition add : t → t → t := SFadd prec emax.
Definition mul : t → t → t := SFmul prec emax.
Definition div : t → t → t := SFdiv prec emax.
Definition ltb : t → t → bool := SFltb.
Definition eqb : t → t → bool := SFeqb.

(** Conversion of an [int] operand of a mixed expression. *)
Definition of_int (z : Z) : t := binary_normalize prec emax z 0 false.

(** [std::max(a, b)] is [(a < b) ? b : a]. *)
Definition max (a b : t) : t := if ltb a b then b else a.
End F32.

Declare Scope f32_scope.
Delimit Scope f32_scope with f32.
Bind Scope f32_scope with F32.t.
Infix "+" := F32.add : f32_scope.
Infix "*" := F32.mul : f32_scope.
Infix "/" := F32.div : f32_scope.
Infix "<?" := F32.ltb : f32_scope.

(** ** [KeywordSpot::Token] *)

Record Token : Type := mkToken {
  active : bool;
  is_filler : bool;
  score : F32.t;
  num_keyword_frames : Z;
  average_keyword_score : F32.t;
  keyword : Z;
  num_frames_of_current_state : Z;
  num_keyword_states : Z;
  max_score_of_current_state : F32.t;
  average_max_keyword_score : F32.t;
  average_max_keyword_score_before : F32.t;
}.

Module Token.

(** [Token()], which is also what [Token::Reset] leaves. *)
Definition new : Token :=
  {| active := false;
     is_filler := true;
     score := F32.zero;
     num_keyword_frames := 0;
     average_keyword_score := F32.zero;
     keyword := 0;
     num_frames_of_current_state := 0;
     num_keyword_states := 0;
     max_score_of_current_state := F32.zero;
     average_max_keyword_score := F32.zero;
     average_max_keyword_score_before := F32.zero |}.

Definition Reset (self : Token) : Token := new.

(** The condition of the outer [if] of [Update]. *)
Definition wins (self prev : Token) (am_score : F32.t) : bool :=
  negb (active self)
  || (active self && (score self <? score prev + am_score)%f32).

(** The body of [if (!is_filler)]: the keyword statistics of a winning
    update over a keyword arc.  [self] already carries the new score. *)
Definition keyword_update (self prev : Token) (olabel : Z)
    (is_self_arc : bool) (am_score : F32.t) : result Token :=
  let t := num_keyword_frames prev in
  let average_keyword_score' :=
    ((am_score + average_keyword_score prev * F32.of_int t)
     / F32.of_int (wrap32 (t + 1)))%f32 in
  let num_keyword_frames' := wrap32 (t + 1) in
  '(dwell, states, peak, before) ←
    (if is_self_arc then
       let states := num_keyword_states prev in
       _ ← CHECK (0 <? states);
       Ok (wrap32 (num_frames_of_current_state prev + 1),
           states,
           F32.max (max_score_of_current_state prev) am_score,
           average_max_keyword_score_before prev)
     else
       Ok (1,
           wrap32 (num_keyword_states prev + 1),
           am_score,
           average_max_keyword_score prev));
  Ok {| active := active self;
        is_filler := is_filler self;
        score := score self;
        num_keyword_frames := num_keyword_frames';
        average_keyword_score := average_keyword_score';
        keyword := if olabel =? 0 then keyword self else olabel;
        num_frames_of_current_state := dwell;
        num_keyword_states := states;
        max_score_of_current_state := peak;
        average_max_keyword_score :=
          ((peak + before * F32.of_int (wrap32 (states - 1)))
           / F32.of_int states)%f32;
        average_max_keyword_score_before := before |}.

Definition set_score (self : Token) (s : F32.t) : Token :=
  {| active := active self;
     is_filler := is_filler self;
     score := s;
     num_keyword_frames := num_keyword_frames self;
     average_keyword_score := average_keyword_score self;
     keyword := keyword self;
     num_frames_of_current_state := num_frames_of_current_state self;
     num_keyword_states := num_keyword_states self;
     max_score_of_current_state := max_score_of_current_state self;
     average_max_keyword_score := average_max_keyword_score self;
     average_max_keyword_score_before :=
       average_max_keyword_score_before self |}.

(** The two assignments that end [Update]. *)
Definition mark (self : Token) (filler : bool) : Token :=
  {| active := true;
     is_filler := filler;
     score := score self;
     num_keyword_frames := num_keyword_frames self;
     average_keyword_score := average_keyword_score self;
     keyword := keyword self;
     num_frames_of_current_state := num_frames_of_current_state self;
     num_keyword_states := num_keyword_states self;
     max_score_of_current_state := max_score_of_current_state self;
     average_max_keyword_score := average_max_keyword_score self;
     average_max_keyword_score_before :=
       average_max_keyword_score_before self |}.

(** [Token::Update].  [prev] is another object than [self]: the decoder
    passes a token of the previous frame to a token of the current one. *)
Definition Update (self prev : Token) (olabel : Z)
    (is_self_arc filler : bool) (am_score : F32.t) : result Token :=
  self' ←
    (if wins self prev am_score then
       let self1 := set_score self (score prev + am_score)%f32 in
       if negb filler
       then keyword_update self1 prev olabel is_self_arc am_score
       else Ok self1
     else Ok self);
  Ok (mark self' filler).

End Token.

(** ** The collaborators of the decoder *)

(** Modelled from the spec: [fst.h] is not among the source files.  An arc
    carries the input label (a phone identifier), the output label (a
    keyword identifier, 0 for none) and the destination that [Spot] reads. *)
Record Arc : Type := mkArc {
  ilabel : Z;
  olabel : Z;
  next_state : Z;
}.

(** Modelled from the spec: a transducer gives its number of states, the
    arcs that leave a state (the range [ArcStart(i)] to [ArcEnd(i)]) and
    the final states. *)
Record Fst : Type := mkFst {
  NumStates : nat;
  Arcs : nat → list Arc;
  IsFinal : nat → bool;
}.

(** Modelled from the spec: the filler table answers one question,
    whether a phone identifier is in it. *)
Record SymbolTable : Type := mkSymbolTable {
  HaveId : Z → bool;
}.

Definition kMaxTokenPassingFrames : Z := 100 * 60 * 10.

(** ** [KeywordSpot] *)

Record KeywordSpot : Type := mkKeywordSpot {
  num_frames_ : Z;
  prev_tokens_ : list Token;
  cur_tokens_ : list Token;
  spot_threshold_ : F32.t;
  min_keyword_frames_ : Z;
  min_frames_for_last_state_ : Z;
}.

(** What the scan of [Spot] for the best scores keeps. *)
Record Selection : Type := mkSelection {
  best_state : nat;
  best_final_state : nat;
  best_score : F32.t;
  best_final_score : F32.t;
  reach_final : bool;
}.

(** What a call of [Spot] gives back: the returned flag, [*confidence] and
    [*keyword]. *)
Record Output : Type := mkOutput {
  legal : bool;
  confidence : F32.t;
  spotted_keyword : Z;
}.

Definition SetSpotThreshold (d : KeywordSpot) (threshold : F32.t) : KeywordSpot :=
  {| num_frames_ := num_frames_ d;
     prev_tokens_ := prev_tokens_ d;
     cur_tokens_ := cur_tokens_ d;
     spot_threshold_ := threshold;
     min_keyword_frames_ := min_keyword_frames_ d;
     min_frames_for_last_state_ := min_frames_for_last_state_ d |}.

Definition SetMinKeywordFrames (d : KeywordSpot) (frames : Z) : KeywordSpot :=
  {| num_frames_ := num_frames_ d;
     prev_tokens_ := prev_tokens_ d;
     cur_tokens_ := cur_tokens_ d;
     spot_threshold_ := spot_threshold_ d;
     min_keyword_frames_ := frames;
     min_frames_for_last_state_ := min_frames_for_last_state_ d |}.

Definition SetMinFramesForLastState (d : KeywordSpot) (frames : Z) : KeywordSpot :=
  {| num_frames_ := num_frames_ d;
     prev_tokens_ := prev_tokens_ d;
     cur_tokens_ := cur_tokens_ d;
     spot_threshold_ := spot_threshold_ d;
     min_keyword_frames_ := min_keyword_frames_ d;
     min_frames_for_last_state_ := frames |}.

(** [tokens[0].active = true]. *)
Definition activate (tok : Token) : Token :=
  {| active := true;
     is_filler := is_filler tok;
     score := score tok;
     num_keyword_frames := num_keyword_frames tok;
     average_keyword_score := average_keyword_score tok;
     keyword := keyword tok;
     num_frames_of_current_state := num_frames_of_current_state tok;
     num_keyword_states := num_keyword_states tok;
     max_score_of_current_state := max_score_of_current_state tok;
     average_max_keyword_score := average_max_keyword_score tok;
     average_max_keyword_score_before :=
       average_max_keyword_score_before tok |}.

Definition Reset (d : KeywordSpot) : result KeywordSpot :=
  let prev := Token.Reset <$> prev_tokens_ d in
  let cur := Token.Reset <$> cur_tokens_ d in
  start ← at_index prev 0;
  Ok {| num_frames_ := 0;
        prev_tokens_ := <[0%nat := activate start]> prev;
        cur_tokens_ := cur;
        spot_threshold_ := spot_threshold_ d;
        min_keyword_frames_ := min_keyword_frames_ d;
        min_frames_for_last_state_ := min_frames_for_last_state_ d |}.

(** The loop [for (i = 0; i < n; i++) tokens[i].Reset()]. *)
Fixpoint reset_first (n : nat) (tokens : list Token) : result (list Token) :=
  match n with
  | O => Ok tokens
  | S n' =>
      match tokens with
      | [] => Undefined
      | tok :: rest => rest' ← reset_first n' rest; Ok (Token.Reset tok :: rest')
      end
  end.

Section Decoder.

Context (fst_ : Fst) (filler_table_ : SymbolTable).
(** [logf] and [expf] of the C library. *)
Context (logf expf : F32.t → F32.t).

(** The constructor. *)
Definition construct : result KeywordSpot :=
  Reset {| num_frames_ := 0;
           prev_tokens_ := replicate (NumStates fst_) Token.new;
           cur_tokens_ := replicate (NumStates fst_) Token.new;
           spot_threshold_ := F32.half;
           min_keyword_frames_ := 0;
           min_frames_for_last_state_ := 5 |}.

Definition IsFillerPhone (phone : Z) : bool := HaveId filler_table_ phone.

(** *** Propagation: the first loop of [Spot] *)

(** The body of the loop over the arcs of state [i]. *)
Definition pass_arc (am_score : list F32.t) (num : Z) (i : nat)
    (prev : Token) (cur : list Token) (arc : Arc) : result (list Token) :=
  _ ← CHECK (0 <=? next_state arc);
  _ ← CHECK (next_state arc <? Z.of_nat (length cur));
  _ ← CHECK (ilabel arc <=? num);
  x ← at_index am_score (wrap32 (ilabel arc - 1));
  let score := logf x in
  let filler := IsFillerPhone (ilabel arc) in
  let is_self_arc := Z.of_nat i =? next_state arc in
  self ← at_index cur (next_state arc);
  self' ← Token.Update self prev (olabel arc) is_self_arc filler score;
  Ok (<[Z.to_nat (next_state arc) := self']> cur).

Fixpoint pass_arcs (am_score : list F32.t) (num : Z) (i : nat)
    (prev : Token) (arcs : list Arc) (cur : list Token) : result (list Token) :=
  match arcs with
  | [] => Ok cur
  | arc :: rest =>
      cur' ← pass_arc am_score num i prev cur arc;
      pass_arcs am_score num i prev rest cur'
  end.

(** The loop over the previous tokens, from state [i] on. *)
Fixpoint pass_from (am_score : list F32.t) (num : Z) (i : nat)
    (prevs : list Token) (cur : list Token) : result (list Token) :=
  match prevs with
  | [] => Ok cur
  | prev :: rest =>
      cur' ← (if active prev
              then pass_arcs am_score num i prev (Arcs fst_ i) cur
              else Ok cur);
      pass_from am_score num (S i) rest cur'
  end.

Definition propagate (d : KeywordSpot) (am_score : list F32.t) (num : Z)
    : result (list Token) :=
  pass_from am_score num 0 (prev_tokens_ d) (cur_tokens_ d).

(** *** Selection: the loop under [// find best score] *)

Definition scan_state (s : Selection) (i : nat) (tok : Token) : Selection :=
  let s1 :=
    if active tok && (best_score s <? score tok)%f32
    then {| best_state := i;
            best_final_state := best_final_state s;
            best_score := score tok;
            best_final_score := best_final_score s;
            reach_final := reach_final s |}
    else s in
  if active tok && IsFinal fst_ i then
    if negb (reach_final s1) then
      {| best_state := best_state s1;
         best_final_state := i;
         best_score := best_score s1;
         best_final_score := score tok;
         reach_final := true |}
    else if (best_final_score s1 <? score tok)%f32 then
      {| best_state := best_state s1;
         best_final_state := i;
         best_score := best_score s1;
         best_final_score := score tok;
         reach_final := reach_final s1 |}
    else s1
  else s1.

Fixpoint scan_from (i : nat) (tokens : list Token) (s : Selection) : Selection :=
  match tokens with
  | [] => s
  | tok :: rest => scan_from (S i) rest (scan_state s i tok)
  end.

Definition find_best (cur : list Token) : result Selection :=
  first ← at_index cur 0;
  Ok (scan_from 1 (drop 1 cur)
        {| best_state := 0;
           best_final_state := 0;
           best_score := score first;
           best_final_score := F32.zero;
           reach_final := false |}).

(** *** Decision: [if (reach_final) ...] *)

Definition decision (d : KeywordSpot) (cur : list Token) (s : Selection)
    : result Output :=
  if reach_final s then
    tok ← at_index cur (Z.of_nat (best_final_state s));
    let conf := expf (average_max_keyword_score tok) in
    Ok {| legal :=
            (min_keyword_frames_ d <=? num_keyword_frames tok)
            && (min_frames_for_last_state_ d <=? num_frames_of_current_state tok)
            && (spot_threshold_ d <? conf)%f32;
          confidence := conf;
          spotted_keyword := keyword tok |}
  else
    Ok {| legal := false; confidence := F32.zero; spotted_keyword := 0 |}.

(** *** Rotation and the guard on [num_frames_] *)

Definition guard (num_frames : Z) (s : Selection) (prev cur : list Token)
    : result (list Token) :=
  if kMaxTokenPassingFrames <? num_frames then
    best ← at_index prev (Z.of_nat (best_state s));
    if is_filler best then reset_first (length cur) prev else Ok prev
  else Ok prev.

Definition Spot (d : KeywordSpot) (am_score : list F32.t) (num : Z)
    : result (KeywordSpot * Output) :=
  cur ← propagate d am_score num;
  s ← find_best cur;
  out ← decision d cur s;
  let prev1 := cur in
  let cur1 := Token.Reset <$> prev_tokens_ d in
  let num_frames1 := wrap32 (num_frames_ d + 1) in
  prev2 ← guard num_frames1 s prev1 cur1;
  Ok ({| num_frames_ := num_frames1;
         prev_tokens_ := prev2;
         cur_tokens_ := cur1;
         spot_threshold_ := spot_threshold_ d;
         min_keyword_frames_ := min_keyword_frames_ d;
         min_frames_for_last_state_ := min_frames_for_last_state_ d |},
      out).

(** *** Histories of a decoder *)

(** A frame as the caller passes it: [am_score] and [num]. *)
Definition Frame : Type := list F32.t * Z.

(** The outputs of [Spot] over the frames of a stream, call by call; the
    list ends with the failure when a call does not return. *)
Fixpoint feed (d : KeywordSpot) (frames : list Frame) : list (result Output) :=
  match frames with
  | [] => []
  | (am_score, num) :: rest =>
      match Spot d am_score num with
      | Ok (d', out) => Ok out :: feed d' rest
      | CheckFailed => [CheckFailed]
      | Undefined => [Undefined]
      end
  end.

(** The decoder after the frames of a stream. *)
Fixpoint run (d : KeywordSpot) (frames : list Frame) : result KeywordSpot :=
  match frames with
  | [] => Ok d
  | (am_score, num) :: rest =>
      '(d', _) ← Spot d am_score num;
      run d' rest
  end.

(** [since_reset k d]: the program can hold the decoder [d], and [k] calls
    of [Spot] have returned since it was constructed or last reset. *)
Inductive since_reset : nat → KeywordSpot → Prop :=
  | sr_construct d :
      construct = Ok d → since_reset 0 d
  | sr_Reset k d d' :
      since_reset k d → Reset d = Ok d' → since_reset 0 d'
  | sr_Spot k d am_score num d' out :
      since_reset k d → Spot d am_score num = Ok (d', out) →
      since_reset (S k) d'
  | sr_SetSpotThreshold k d threshold :
      since_reset k d → since_reset k (SetSpotThreshold d threshold)
  | sr_SetMinKeywordFrames k d frames :
      since_reset k d → since_reset k (SetMinKeywordFrames d frames)
  | sr_SetMinFramesForLastState k d frames :
      since_reset k d → since_reset k (SetMinFramesForLastState d frames).

Definition reachable (d : KeywordSpot) : Prop := ∃ k, since_reset k d.

(** A decoder constructed anew and given the configuration of [d]. *)
Definition fresh_like (d : KeywordSpot) : result KeywordSpot :=
  d0 ← construct;
  Ok (SetMinFramesForLastState
        (SetMinKeywordFrames
           (SetSpotThreshold d0 (spot_threshold_ d))
           (min_keyword_frames_ d))
        (min_frames_for_last_state_ d)).

End Decoder.

(** ** Vocabulary of the statements *)

(** The keyword statistics of a token: every field but [active], [is_filler]
    and [score]. *)
Definition keyword_stats (tok : Token)
    : Z * F32.t * Z * Z * Z * F32.t * F32.t * F32.t :=
  (num_keyword_frames tok, average_keyword_score tok, keyword tok,
   num_frames_of_current_state tok, num_keyword_states tok,
   max_score_of_current_state tok, average_max_keyword_score tok,
   average_max_keyword_score_before tok).

(** The score and the statistics of a token are all zero. *)
Definition zeroed (tok : Token) : Prop :=
  score tok = F32.zero ∧
  keyword_stats tok =
    (0, F32.zero, 0, 0, 0, F32.zero, F32.zero, F32.zero).

(** The decoder as [Reset] leaves it: [n + 1] states, the first one active. *)
Definition armed (n : nat) (threshold : F32.t) (min_frames min_last : Z)
    : KeywordSpot :=
  {| num_frames_ := 0;
     prev_tokens_ := activate Token.new :: replicate n Token.new;
     cur_tokens_ := replicate (S n) Token.new;
     spot_threshold_ := threshold;
     min_keyword_frames_ := min_frames;
     min_frames_for_last_state_ := min_last |}.

(** The count of keyword states of a token lies between 0 and [k]. *)
Definition counted (k : Z) (tok : Token) : Prop :=
  0 ≤ num_keyword_states tok ≤ k.

(** State [i] of the buffer [cur] holds the active token [tok] and is a
    final state of the transducer. *)
Definition final_candidate (fst_ : Fst) (cur : list Token) (i : nat)
    (tok : Token) : Prop :=
  cur !! i = Some tok ∧ active tok = true ∧ IsFinal fst_ i = true.

(** What the selection [s] knows of the best state once the scan has
    passed the states [1 .. n - 1] of [cur]: the best state is state 0, or
    an active state among them, and none of their active states beats it. *)
Definition best_of (cur : list Token) (n : nat) (s : Selection) : Prop :=
  (best_state s < n)%nat
  ∧ (∃ tok, cur !! best_state s = Some tok
            ∧ best_score s = score tok
            ∧ (best_state s = 0%nat ∨ active tok = true))
  ∧ (∀ j tok, (1 ≤ j < n)%nat → cur !! j = Some tok → active tok = true →
              (best_score s <? score tok)%f32 = false).

(** What it knows of the final states: none of the states [1 .. n - 1] is
    an active final state, or the best final state is one of them that none
    of their active final states beats. *)
Definition best_final_of (fst_ : Fst) (cur : list Token) (n : nat)
    (s : Selection) : Prop :=
  (reach_final s = false →
   ∀ j tok, (1 ≤ j < n)%nat → cur !! j = Some tok →
            active tok && IsFinal fst_ j = false)
  ∧ (reach_final s = true →
     (1 ≤ best_final_state s < n)%nat
     ∧ ∃ tok, final_candidate fst_ cur (best_final_state s) tok
              ∧ best_final_score s = score tok
              ∧ ∀ j tok', (1 ≤ j < n)%nat → final_candidate fst_ cur j tok' →
                          (score tok <? score tok')%f32 = false).

Definition scanned (fst_ : Fst) (cur : list Token) (n : nat) (s : Selection)
    : Prop :=
  best_of cur n s ∧ best_final_of fst_ cur n s.

(** What [Spot] gives back when it reaches no final state. *)
Definition no_spot : Output :=
  {| legal := false; confidence := F32.zero; spotted_keyword := 0 |}.

(** The score that [Spot] computes for an arc from the frame [am_score],
    [logf(am_score[arc->ilabel - 1])], when the index is inside the frame. *)
Definition arc_score (logf : F32.t → F32.t) (am_score : list F32.t)
    (arc : Arc) : option F32.t :=
  match at_index am_score (wrap32 (ilabel arc - 1)) with
  | Ok x => Some (logf x)
  | _ => None
  end.

(** The arc [arc] leaves state [i], which the previous frame left active
    with the token [prev], and enters state [j]. *)
Definition enters (fst_ : Fst) (prevs : list Token) (i : nat) (prev : Token)
    (arc : Arc) (j : nat) : Prop :=
  prevs !! i = Some prev ∧ active prev = true
  ∧ arc ∈ Arcs fst_ i ∧ next_state arc = Z.of_nat j.

(** The arcs of the states of the transducer stay inside it and carry
    phones between 1 and [phones]. *)
Definition arcs_in_range (fst_ : Fst) (phones : Z) : Prop :=
  ∀ i arc, (i < NumStates fst_)%nat → arc ∈ Arcs fst_ i →
           0 ≤ next_state arc < Z.of_nat (NumStates fst_)
           ∧ 1 ≤ ilabel arc ≤ phones.

(** A state that loops on a keyword phone is not the start state, and only
    keyword phones enter it. *)
Definition keyword_loops_entered (fst_ : Fst) (filler_table_ : SymbolTable)
    : Prop :=
  ∀ i arc, (i < NumStates fst_)%nat → arc ∈ Arcs fst_ i →
           next_state arc = Z.of_nat i →
           HaveId filler_table_ (ilabel arc) = false →
           (0 < i)%nat
           ∧ ∀ i' arc', (i' < NumStates fst_)%nat → arc' ∈ Arcs fst_ i' →
                        next_state arc' = Z.of_nat i →
                        HaveId filler_table_ (ilabel arc') = false.

(** The arcs that the first loop of [Spot] passes, in its order: for each
    state in turn that the previous frame left active, the arcs that leave
    it, each with the state and its token. *)
Fixpoint schedule (fst_ : Fst) (i : nat) (prevs : list Token)
    : list (nat * Token * Arc) :=
  match prevs with
  | [] => []
  | prev :: rest =>
      (if active prev then (λ arc, (i, prev, arc)) <$> Arcs fst_ i else [])
      ++ schedule fst_ (S i) rest
  end.

(** The body of the first loop of [Spot] over a list of such arcs. *)
Fixpoint pass_all (filler_table_ : SymbolTable) (logf : F32.t → F32.t)
    (am_score : list F32.t) (num : Z) (passes : list (nat * Token * Arc))
    (cur : list Token) : result (list Token) :=
  match passes with
  | [] => Ok cur
  | (i, prev, arc) :: rest =>
      cur' ← pass_arc filler_table_ logf am_score num i prev cur arc;
      pass_all filler_table_ logf am_score num rest cur'
  end.

(** The counters of a token fit together after at most [k] frames: all
    zero, or at least one keyword state and one frame in it, with the
    frames in the state and the earlier states within the keyword frames. *)
Definition consistent (k : Z) (tok : Token) : Prop :=
  (num_keyword_frames tok = 0 ∧ num_keyword_states tok = 0
   ∧ num_frames_of_current_state tok = 0)
  ∨ (1 ≤ num_keyword_states tok
     ∧ 1 ≤ num_frames_of_current_state tok
     ∧ num_frames_of_current_state tok + num_keyword_states tok
       ≤ num_keyword_frames tok + 1
     ∧ num_keyword_frames tok ≤ k).

(** The ceiling of the guard as the specification gives it. *)
Definition spec_ceiling : Z := 600000.

(** ** Concrete transducers and frames *)

Module Scenario.

(** The binary32 number nearest to [ln 0.5], [-0x1.62e43p-1]. *)
Definition neg_ln2 : F32.t := S754_finite true 11629080 (-24).

(** [logf] and [expf] at the scores the frames below carry: [logf 1] is
    [+0] and [expf 0] is [1] in every C library, and [neg_ln2] is the
    rounding of [ln 0.5].  No other argument occurs. *)
Definition logf (x : F32.t) : F32.t :=
  if F32.eqb x F32.one then F32.zero
  else if F32.eqb x F32.half then neg_ln2
  else S754_nan.

Definition expf (x : F32.t) : F32.t :=
  if F32.eqb x F32.zero then F32.one
  else if F32.eqb x neg_ln2 then F32.half
  else S754_nan.

(** Phone 1 is the only filler phone. *)
Definition filler_table : SymbolTable := {| HaveId := λ phone, phone =? 1 |}.

(** The transducer of the legality scenario: state 0 loops on the filler
    phone 1 and goes to state 1 on phone 2; state 1 loops on phone 2 and
    goes to state 2 on phone 3 with the keyword 7; state 2 is final and
    loops on phone 3. *)
Definition keyword_fst : Fst :=
  {| NumStates := 3;
     Arcs := λ i,
       match i with
       | 0%nat => [mkArc 1 0 0; mkArc 2 0 1]
       | 1%nat => [mkArc 2 0 1; mkArc 3 7 2]
       | 2%nat => [mkArc 3 0 2]
       | _ => []
       end;
     IsFinal := λ i, Nat.eqb i 2 |}.

(** One state that loops on the filler phone. *)
Definition silence_fst : Fst :=
  {| NumStates := 1;
     Arcs := λ i, match i with 0%nat => [mkArc 1 0 0] | _ => [] end;
     IsFinal := λ _, false |}.

(** The start state has no loop: state 0 goes to state 1 on phone 2 and
    state 1 loops on phone 2. *)
Definition no_loop_fst : Fst :=
  {| NumStates := 2;
     Arcs := λ i,
       match i with
       | 0%nat => [mkArc 2 0 1]
       | 1%nat => [mkArc 2 0 1]
       | _ => []
       end;
     IsFinal := λ i, Nat.eqb i 1 |}.

(** The start state is the final state: state 0 goes to state 1 on phone 2
    and state 1 comes back on phone 3 with the keyword 7. *)
Definition final_start_fst : Fst :=
  {| NumStates := 2;
     Arcs := λ i,
       match i with
       | 0%nat => [mkArc 2 0 1]
       | 1%nat => [mkArc 3 7 0]
       | _ => []
       end;
     IsFinal := λ i, Nat.eqb i 0 |}.

(** Frames of three phone scores. *)
Definition silence : Frame := ([F32.one; F32.half; F32.half], 3).
Definition phone2 : Frame := ([F32.half; F32.one; F32.half], 3).
Definition phone3 : Frame := ([F32.half; F32.half; F32.one], 3).
Definition all_ones : Frame := ([F32.one; F32.one; F32.one], 3).
Definition all_halves : Frame := ([F32.half; F32.half; F32.half], 3).

(** A token of a keyword path, one keyword state deep. *)
Definition entered : Token :=
  {| active := true;
     is_filler := false;
     score := F32.zero;
     num_keyword_frames := 1;
     average_keyword_score := F32.zero;
     keyword := 0;
     num_frames_of_current_state := 1;
     num_keyword_states := 1;
     max_score_of_current_state := F32.zero;
     average_max_keyword_score := F32.zero;
     average_max_keyword_score_before := F32.zero |}.

(** The decoder of [keyword_fst] as the constructor leaves it. *)
Definition keyword_decoder : KeywordSpot := armed 2 F32.half 0 5.

(** The same decoder after the frame [phone2]: state 0 has looped on the
    filler phone and state 1 holds the token [entered]. *)
Definition after_phone2 : KeywordSpot :=
  {| num_frames_ := 1;
     prev_tokens_ :=
       [ {| active := true;
            is_filler := true;
            score := neg_ln2;
            num_keyword_frames := 0;
            average_keyword_score := F32.zero;
            keyword := 0;
            num_frames_of_current_state := 0;
            num_keyword_states := 0;
            max_score_of_current_state := F32.zero;
            average_max_keyword_score := F32.zero;
            average_max_keyword_score_before := F32.zero |};
         entered;
         Token.new ];
     cur_tokens_ := [Token.new; Token.new; Token.new];
     spot_threshold_ := F32.half;
     min_keyword_frames_ := 0;
     min_frames_for_last_state_ := 5 |}.

(** The output of a call that spots nothing. *)
Definition nothing : Output :=
  {| legal := false; confidence := F32.zero; spotted_keyword := 0 |}.

(** The decoder of [silence_fst] after 60000 frames of silence. *)
Definition at_ceiling : KeywordSpot :=
  {| num_frames_ := 60000;
     prev_tokens_ := [activate Token.new];
     cur_tokens_ := [Token.new];
     spot_threshold_ := F32.half;
     min_keyword_frames_ := 0;
     min_frames_for_last_state_ := 5 |}.

(** The same decoder one frame later, the guard having cleared it. *)
Definition silenced : KeywordSpot :=
  {| num_frames_ := 60001;
     prev_tokens_ := [Token.new];
     cur_tokens_ := [Token.new];
     spot_threshold_ := F32.half;
     min_keyword_frames_ := 0;
     min_frames_for_last_state_ := 5 |}.

(** Two arcs from state 0 to state 1, on the phones 2 and 3, with the
    keywords 5 and 7. *)
Definition parallel_fst : Fst :=
  {| NumStates := 2;
     Arcs := λ i,
       match i with
       | 0%nat => [mkArc 2 5 1; mkArc 3 7 1]
       | _ => []
       end;
     IsFinal := λ i, Nat.eqb i 1 |}.

(** The token that the first of these arcs leaves on state 1 when every
    phone scores 1. *)
Definition first_arrival : Token :=
  {| active := true;
     is_filler := false;
     score := F32.zero;
     num_keyword_frames := 1;
     average_keyword_score := F32.zero;
     keyword := 5;
     num_frames_of_current_state := 1;
     num_keyword_states := 1;
     max_score_of_current_state := F32.zero;
     average_max_keyword_score := F32.zero;
     average_max_keyword_score_before := F32.zero |}.

(** The decoder of [keyword_fst] with no active state. *)
Definition cleared : KeywordSpot :=
  {| num_frames_ := 60001;
     prev_tokens_ := [Token.new; Token.new; Token.new];
     cur_tokens_ := [Token.new; Token.new; Token.new];
     spot_threshold_ := F32.half;
     min_keyword_frames_ := 0;
     min_frames_for_last_state_ := 5 |}.

End Scenario.

(** * Properties *)

(** ** Machine numbers *)

Lemma wrap32_small z : - 2 ^ 31 ≤ z < 2 ^ 31 → wrap32 z = z.
Proof.
  intros Hz. unfold wrap32.
  rewrite Z.mod_small by lia. lia.
Qed.

Lemma wrap32_range z : - 2 ^ 31 ≤ wrap32 z < 2 ^ 31.
Proof.
  unfold wrap32.
  pose proof (Z.mod_pos_bound (z + 2 ^ 31) (2 ^ 32) ltac:(lia)). lia.
Qed.

Lemma kMaxTokenPassingFrames_value : kMaxTokenPassingFrames = 60000.
Proof. reflexivity. Qed.

(** Two numbers that compare equal are not in strict order. *)
Lemma F32_eqb_not_ltb (x y : F32.t) : F32.eqb x y = true → (x <? y)%f32 = false.
Proof.
  unfold F32.eqb, F32.ltb, SFeqb, SFltb.
  destruct (SFcompare x y) as [[]|]; congruence.
Qed.

(** The strict order of binary32 is transitive and irreflexive, NaN
    included (it compares with nothing). *)
Lemma F32_ltb_trans (a b c : F32.t) :
  (a <? b)%f32 = true → (b <? c)%f32 = true → (a <? c)%f32 = true.
Proof.
  unfold F32.ltb, SFltb.
  destruct a as [sa | sa | | sa ma ea], b as [sb | sb | | sb mb eb],
    c as [sc | sc | | sc mc ec]; simpl; try discriminate;
    repeat match goal with s : bool |- _ => destruct s end;
    simpl; try discriminate; try done.
  all: change (Pos.compare_cont Eq) with Pos.compare.
  all: destruct (Z.compare_spec ea eb), (Z.compare_spec eb ec),
         (Z.compare_spec ea ec); try discriminate; try done; try lia.
  all: subst.
  all: destruct (Pos.compare_spec ma mb), (Pos.compare_spec mb mc),
         (Pos.compare_spec ma mc); simpl; try discriminate; try done; try lia.
Qed.

Lemma F32_ltb_irrefl (a : F32.t) : (a <? a)%f32 = false.
Proof.
  unfold F32.ltb, SFltb.
  destruct a as [[] | [] | | [] m e]; simpl; try done.
  all: rewrite Z.compare_refl; change (Pos.compare_cont Eq) with Pos.compare.
  all: by rewrite Pos.compare_refl.
Qed.

(** [y >= x] excludes [y < x]. *)
Lemma F32_leb_not_ltb (x y : F32.t) : SFleb x y = true → (y <? x)%f32 = false.
Proof.
  unfold F32.ltb, SFltb, SFleb.
  destruct x as [sx | sx | | sx mx ex], y as [sy | sy | | sy my ey];
    simpl; try discriminate; try done;
    repeat match goal with s : bool |- _ => destruct s end;
    simpl; try discriminate; try done.
  all: change (Pos.compare_cont Eq) with Pos.compare.
  all: rewrite (Z.compare_antisym ex ey), (Pos.compare_antisym mx my).
  all: destruct (ex ?= ey); simpl; try discriminate; try done.
  all: destruct (mx ?= my)%positive; simpl; try discriminate; done.
Qed.

(** A number that beats the best so far is beaten by nothing the best so
    far was not beaten by. *)
Lemma F32_new_best (best x y : F32.t) :
  (best <? x)%f32 = true → (best <? y)%f32 = false → (x <? y)%f32 = false.
Proof.
  intros Hx Hy. destruct (x <? y)%f32 eqn:Hxy; [| done].
  by rewrite (F32_ltb_trans _ _ _ Hx Hxy) in Hy.
Qed.

(** ** Results *)

Lemma bind_Ok {A B} (m : result A) (f : A → result B) (b : B) :
  m ≫= f = Ok b → ∃ a, m = Ok a ∧ f a = Ok b.
Proof. destruct m as [a| |]; [eauto | discriminate | discriminate]. Qed.

(** Splits a hypothesis [x ← m; k = Ok b] along its binds. *)
Ltac inv_bind H :=
  repeat (let x := fresh "x" in
          let Hx := fresh "H" x in
          cbv beta zeta in H;
          apply bind_Ok in H as (x & Hx & H));
  cbv beta zeta in H.

Lemma at_index_Ok {A} (v : list A) i a :
  at_index v i = Ok a → 0 ≤ i ∧ v !! Z.to_nat i = Some a.
Proof.
  unfold at_index. destruct (Z.ltb_spec i 0); [discriminate |].
  destruct (v !! Z.to_nat i); [| discriminate].
  intros [= ->]. split; [lia | done].
Qed.

Lemma at_index_lookup {A} (v : list A) (i : nat) a :
  v !! i = Some a → at_index v (Z.of_nat i) = Ok a.
Proof.
  intros Hi. unfold at_index.
  destruct (Z.ltb_spec (Z.of_nat i) 0); [lia |].
  by rewrite Nat2Z.id, Hi.
Qed.

(** ** [Token::Update] *)

Lemma wins_spec self prev am_score :
  Token.wins self prev am_score = true ↔
  active self = false ∨ (score self <? score prev + am_score)%f32 = true.
Proof.
  unfold Token.wins.
  destruct (active self), (score self <? score prev + am_score)%f32;
    simpl; intuition congruence.
Qed.

Lemma wins_false self prev am_score :
  Token.wins self prev am_score = false ↔
  active self = true ∧ (score self <? score prev + am_score)%f32 = false.
Proof.
  unfold Token.wins.
  destruct (active self), (score self <? score prev + am_score)%f32;
    simpl; intuition congruence.
Qed.

(** A lost competition only marks the token. *)
Lemma Update_lost self prev olabel is_self_arc filler am_score :
  Token.wins self prev am_score = false →
  Token.Update self prev olabel is_self_arc filler am_score
  = Ok (Token.mark self filler).
Proof. intros Hw. unfold Token.Update. by rewrite Hw. Qed.

(** An update over a filler arc sets at most the score. *)
Lemma Update_filler self prev olabel is_self_arc am_score :
  Token.Update self prev olabel is_self_arc true am_score
  = Ok (Token.mark
          (if Token.wins self prev am_score
           then Token.set_score self (score prev + am_score)%f32
           else self) true).
Proof. unfold Token.Update. by destruct (Token.wins self prev am_score). Qed.

(** What the branch of the keyword statistics returns. *)
Lemma keyword_update_Ok self prev olabel is_self_arc am_score self' :
  Token.keyword_update self prev olabel is_self_arc am_score = Ok self' →
  active self' = active self ∧ is_filler self' = is_filler self ∧
  score self' = score self ∧
  num_keyword_states self' =
    (if is_self_arc then num_keyword_states prev
     else wrap32 (num_keyword_states prev + 1)) ∧
  (is_self_arc = true → 0 < num_keyword_states prev).
Proof.
  unfold Token.keyword_update. destruct is_self_arc; simpl.
  - destruct (Z.ltb_spec 0 (num_keyword_states prev)); simpl; [| discriminate].
    intros [= <-]. simpl. auto.
  - intros [= <-]. simpl. repeat split; discriminate.
Qed.

Lemma keyword_update_total self prev olabel is_self_arc am_score :
  (is_self_arc = true → 0 < num_keyword_states prev) →
  ∃ self', Token.keyword_update self prev olabel is_self_arc am_score = Ok self'.
Proof.
  intros Hpre. unfold Token.keyword_update. destruct is_self_arc; simpl.
  - destruct (Z.ltb_spec 0 (num_keyword_states prev)); simpl; [eauto |].
    specialize (Hpre eq_refl). lia.
  - eauto.
Qed.

Lemma keyword_update_CheckFailed self prev olabel is_self_arc am_score :
  Token.keyword_update self prev olabel is_self_arc am_score = CheckFailed →
  is_self_arc = true ∧ num_keyword_states prev ≤ 0.
Proof.
  unfold Token.keyword_update. destruct is_self_arc; simpl; [| discriminate].
  destruct (Z.ltb_spec 0 (num_keyword_states prev)); simpl; [discriminate |].
  auto.
Qed.

Lemma keyword_update_defined self prev olabel is_self_arc am_score :
  Token.keyword_update self prev olabel is_self_arc am_score ≠ Undefined.
Proof.
  unfold Token.keyword_update. destruct is_self_arc; simpl; [| discriminate].
  destruct (0 <? num_keyword_states prev); simpl; discriminate.
Qed.

(** C2. [Update] changes the score or the keyword statistics of the
    destination only if the destination is not yet active in this frame or
    [prev.score + am_score] is strictly greater than its score; an update
    that arrives with an equal score leaves the values of the earlier one;
    and an update that wins the competition sets the score to
    [prev.score + am_score]. *)
Theorem Update_competition self prev olabel is_self_arc filler am_score self' :
  Token.Update self prev olabel is_self_arc filler am_score = Ok self' →
  (score self' ≠ score self ∨ keyword_stats self' ≠ keyword_stats self →
   active self = false ∨ (score self <? score prev + am_score)%f32 = true)
  ∧ (active self = true →
     F32.eqb (score self) (score prev + am_score)%f32 = true →
     score self' = score self ∧ keyword_stats self' = keyword_stats self)
  ∧ (active self = false ∨ (score self <? score prev + am_score)%f32 = true →
     score self' = (score prev + am_score)%f32).
Proof.
  intros Hup.
  assert (Hlost : Token.wins self prev am_score = false →
                  score self' = score self ∧
                  keyword_stats self' = keyword_stats self).
  { intros Hw. rewrite (Update_lost _ _ _ _ _ _ Hw) in Hup.
    injection Hup as <-. done. }
  split; [| split].
  - intros Hchanged. apply wins_spec.
    destruct (Token.wins self prev am_score) eqn:Hw; [done |].
    destruct (Hlost eq_refl) as [Hs Hk]. destruct Hchanged; congruence.
  - intros Hact Heq. apply Hlost, wins_false.
    split; [done | by apply F32_eqb_not_ltb].
  - intros Hw%wins_spec. unfold Token.Update in Hup. rewrite Hw in Hup.
    apply bind_Ok in Hup as (tok & Htok & [= <-]). simpl.
    destruct filler; simpl in Htok.
    + by injection Htok as <-.
    + by apply keyword_update_Ok in Htok as (_ & _ & -> & _).
Qed.

(** An instance: an inactive token takes the score of a first update. *)
Lemma Update_competition_witness :
  ∃ self',
    Token.Update Token.new Scenario.entered 7 false false Scenario.neg_ln2 = Ok self'
    ∧ score self' = (score Scenario.entered + Scenario.neg_ln2)%f32.
Proof.
  eexists. split; [reflexivity |].
  eapply (Update_competition Token.new Scenario.entered 7 false false
            Scenario.neg_ln2); [reflexivity |].
  left. reflexivity.
Defined.

(** C5. An update over a filler arc returns and leaves every field of the
    keyword statistics as it was, also when it wins the competition and
    overwrites the score. *)
Theorem Update_filler_keeps_statistics self prev olabel is_self_arc am_score :
  ∃ self',
    Token.Update self prev olabel is_self_arc true am_score = Ok self'
    ∧ keyword_stats self' = keyword_stats self
    ∧ score self' =
        (if Token.wins self prev am_score
         then (score prev + am_score)%f32 else score self).
Proof.
  eexists. split; [apply Update_filler |].
  by destruct (Token.wins self prev am_score).
Qed.

(** C6. A call of [Update] that returns has set [active] to true and
    [is_filler] to the classification it was given, whether the competition
    was won or lost; the only calls that do not return are the winning
    updates over a keyword self-arc whose [prev] has no keyword state, which
    the [CHECK] ends. *)
Theorem Update_marks_token self prev olabel is_self_arc filler am_score :
  match Token.Update self prev olabel is_self_arc filler am_score with
  | Ok self' => active self' = true ∧ is_filler self' = filler
  | CheckFailed =>
      Token.wins self prev am_score = true ∧ filler = false ∧
      is_self_arc = true ∧ num_keyword_states prev ≤ 0
  | Undefined => False
  end.
Proof.
  unfold Token.Update.
  destruct (Token.wins self prev am_score); simpl; [| done].
  destruct filler; simpl; [done |].
  destruct (Token.keyword_update _ prev olabel is_self_arc am_score)
    as [tok| |] eqn:Hk; simpl.
  - done.
  - apply keyword_update_CheckFailed in Hk as [Hself Hle]. done.
  - exact (keyword_update_defined _ _ _ _ _ Hk).
Qed.

(** C10. When the competition is lost, the destination being active with a
    score that [prev.score + am_score] does not exceed, [Update] returns and
    every field of the destination other than [active] and [is_filler]
    keeps its value. *)
Theorem Update_lost_frame self prev olabel is_self_arc filler am_score :
  active self = true →
  (score self <? score prev + am_score)%f32 = false →
  ∃ self',
    Token.Update self prev olabel is_self_arc filler am_score = Ok self'
    ∧ score self' = score self
    ∧ num_keyword_frames self' = num_keyword_frames self
    ∧ average_keyword_score self' = average_keyword_score self
    ∧ keyword self' = keyword self
    ∧ num_frames_of_current_state self' = num_frames_of_current_state self
    ∧ num_keyword_states self' = num_keyword_states self
    ∧ max_score_of_current_state self' = max_score_of_current_state self
    ∧ average_max_keyword_score self' = average_max_keyword_score self
    ∧ average_max_keyword_score_before self' =
        average_max_keyword_score_before self.
Proof.
  intros Hact Hlt. eexists. split.
  - apply Update_lost, wins_false. done.
  - done.
Qed.

(** An instance: the token [entered], score 0, against an update that
    arrives with the score [ln 0.5]. *)
Lemma Update_lost_frame_witness :
  ∃ self',
    Token.Update Scenario.entered Scenario.entered 7 true false Scenario.neg_ln2
    = Ok self'
    ∧ score self' = F32.zero
    ∧ num_keyword_frames self' = 1
    ∧ average_keyword_score self' = F32.zero
    ∧ keyword self' = 0
    ∧ num_frames_of_current_state self' = 1
    ∧ num_keyword_states self' = 1
    ∧ max_score_of_current_state self' = F32.zero
    ∧ average_max_keyword_score self' = F32.zero
    ∧ average_max_keyword_score_before self' = F32.zero.
Proof.
  exact (Update_lost_frame Scenario.entered Scenario.entered 7 true false
           Scenario.neg_ln2 eq_refl eq_refl).
Defined.

(** ** Buffers *)

Lemma fmap_Reset (tokens : list Token) :
  Token.Reset <$> tokens = replicate (length tokens) Token.new.
Proof. by apply const_fmap. Qed.

Lemma reset_first_all (tokens : list Token) :
  reset_first (length tokens) tokens = Ok (replicate (length tokens) Token.new).
Proof.
  induction tokens as [| tok rest IH]; simpl; [done |].
  by rewrite IH.
Qed.

(** ** [Reset] and the constructor *)

Lemma Reset_armed d n :
  length (prev_tokens_ d) = S n →
  length (cur_tokens_ d) = S n →
  Reset d = Ok (armed n (spot_threshold_ d) (min_keyword_frames_ d)
                  (min_frames_for_last_state_ d)).
Proof.
  intros Hprev Hcur. unfold Reset. rewrite !fmap_Reset, Hprev, Hcur. done.
Qed.

Lemma Reset_Ok d d' :
  Reset d = Ok d' →
  ∃ n, length (prev_tokens_ d) = S n ∧
       prev_tokens_ d' = activate Token.new :: replicate n Token.new ∧
       cur_tokens_ d' = replicate (length (cur_tokens_ d)) Token.new ∧
       num_frames_ d' = 0 ∧
       spot_threshold_ d' = spot_threshold_ d ∧
       min_keyword_frames_ d' = min_keyword_frames_ d ∧
       min_frames_for_last_state_ d' = min_frames_for_last_state_ d.
Proof.
  unfold Reset. rewrite !fmap_Reset.
  destruct (prev_tokens_ d) as [| tok rest]; [discriminate |].
  simpl. intros [= <-]. exists (length rest). done.
Qed.

(** C8. On a decoder that has a state 0, [Reset] returns, and it leaves
    state 0 of the previous-frame buffer active with a zero score and zero
    statistics, every other token of the two buffers inactive with a zero
    score and zero statistics, both buffers at their length, and the frame
    counter at 0. *)
Theorem Reset_state d :
  (0 < length (prev_tokens_ d))%nat →
  ∃ d',
    Reset d = Ok d'
    ∧ (∃ start, prev_tokens_ d' !! 0%nat = Some start
                ∧ active start = true ∧ zeroed start)
    ∧ (∀ i tok, (0 < i)%nat → prev_tokens_ d' !! i = Some tok →
                active tok = false ∧ zeroed tok)
    ∧ (∀ i tok, cur_tokens_ d' !! i = Some tok →
                active tok = false ∧ zeroed tok)
    ∧ length (prev_tokens_ d') = length (prev_tokens_ d)
    ∧ length (cur_tokens_ d') = length (cur_tokens_ d)
    ∧ num_frames_ d' = 0.
Proof.
  intros Hlen.
  destruct (Reset d) as [d'| |] eqn:HR.
  - exists d'. split; [done |].
    destruct (Reset_Ok _ _ HR) as (n & Hn & Hprev & Hcur & Hframes & _).
    rewrite Hprev, Hcur. split; [| split; [| split; [| split; [| split]]]].
    + exists (activate Token.new). done.
    + intros [| i] tok Hi Htok; [lia |]. simpl in Htok.
      apply lookup_replicate_1 in Htok as [-> _]. done.
    + intros i tok Htok.
      apply lookup_replicate_1 in Htok as [-> _]. done.
    + simpl. rewrite length_replicate. lia.
    + by rewrite length_replicate.
    + done.
  - unfold Reset in HR. rewrite fmap_Reset in HR.
    destruct (prev_tokens_ d); simpl in *; [lia | discriminate].
  - unfold Reset in HR. rewrite fmap_Reset in HR.
    destruct (prev_tokens_ d); simpl in *; [lia | discriminate].
Qed.

Section DecoderFacts.

Context (fst_ : Fst) (filler_table_ : SymbolTable).
Context (logf expf : F32.t → F32.t).

Local Abbreviation pass_arc := (pass_arc filler_table_ logf).
Local Abbreviation pass_arcs := (pass_arcs filler_table_ logf).
Local Abbreviation pass_from := (pass_from fst_ filler_table_ logf).
Local Abbreviation propagate := (propagate fst_ filler_table_ logf).
Local Abbreviation find_best := (find_best fst_).
Local Abbreviation scan_from := (scan_from fst_).
Local Abbreviation scan_state := (scan_state fst_).
Local Abbreviation decision := (decision expf).
Local Abbreviation Spot := (Spot fst_ filler_table_ logf expf).
Local Abbreviation construct := (construct fst_).
Local Abbreviation feed := (feed fst_ filler_table_ logf expf).
Local Abbreviation since_reset := (since_reset fst_ filler_table_ logf expf).
Local Abbreviation reachable := (reachable fst_ filler_table_ logf expf).
Local Abbreviation fresh_like := (fresh_like fst_).

(** *** Propagation keeps the buffer in shape *)

(** An arc is passed by one [Update] of the destination token. *)
Lemma pass_arc_Ok am_score num i prev cur arc cur' :
  pass_arc am_score num i prev cur arc = Ok cur' →
  ∃ self self' x,
    cur !! Z.to_nat (next_state arc) = Some self
    ∧ Token.Update self prev (olabel arc) (Z.of_nat i =? next_state arc)
        (IsFillerPhone filler_table_ (ilabel arc)) (logf x) = Ok self'
    ∧ cur' = <[Z.to_nat (next_state arc) := self']> cur.
Proof.
  unfold pass_arc. intros H. inv_bind H.
  match goal with
  | Hself : at_index cur _ = Ok _ |- _ =>
      apply at_index_Ok in Hself as [_ Hself]
  end.
  injection H as <-. eauto 10.
Qed.

Lemma pass_arc_length am_score num i prev cur arc cur' :
  pass_arc am_score num i prev cur arc = Ok cur' → length cur' = length cur.
Proof.
  intros (self & self' & x & _ & _ & ->)%pass_arc_Ok. apply length_insert.
Qed.

Lemma pass_arcs_length am_score num i prev arcs cur cur' :
  pass_arcs am_score num i prev arcs cur = Ok cur' → length cur' = length cur.
Proof.
  revert cur. induction arcs as [| arc rest IH]; intros cur H; simpl in H.
  - by injection H as <-.
  - apply bind_Ok in H as (cur1 & Hcur1 & H).
    rewrite (IH _ H). eauto using pass_arc_length.
Qed.

Lemma pass_from_length am_score num i prevs cur cur' :
  pass_from am_score num i prevs cur = Ok cur' → length cur' = length cur.
Proof.
  revert i cur. induction prevs as [| prev rest IH]; intros i cur H; simpl in H.
  - by injection H as <-.
  - inv_bind H. rewrite (IH _ _ H).
    destruct (active prev); [eauto using pass_arcs_length |].
    by injection Hx as <-.
Qed.

(** *** What the selection finds *)

Lemma scan_state_best s i tok :
  (best_state (scan_state s i tok), best_score (scan_state s i tok)) =
  if active tok && (best_score s <? score tok)%f32
  then (i, score tok)
  else (best_state s, best_score s).
Proof. unfold scan_state. repeat (case_match; simpl); done. Qed.

Lemma scan_state_final s i tok :
  (best_final_state (scan_state s i tok),
   best_final_score (scan_state s i tok),
   reach_final (scan_state s i tok)) =
  if active tok && IsFinal fst_ i then
    if negb (reach_final s) || (best_final_score s <? score tok)%f32
    then (i, score tok, true)
    else (best_final_state s, best_final_score s, reach_final s)
  else (best_final_state s, best_final_score s, reach_final s).
Proof.
  unfold scan_state. destruct s as [bs bfs bsc bfsc rf]. simpl.
  destruct (active tok && (bsc <? score tok)%f32); simpl;
    destruct (active tok && IsFinal fst_ i); simpl; try done;
    destruct rf; simpl; try done;
    destruct (bfsc <? score tok)%f32; done.
Qed.

Lemma scan_state_best_of cur n s tok :
  cur !! n = Some tok →
  best_of cur n s → best_of cur (S n) (scan_state s n tok).
Proof.
  intros Hn (Hlt & (btok & Hb & Hbs & Hb0) & Hall).
  pose proof (scan_state_best s n tok) as Hs. unfold best_of.
  destruct (active tok) eqn:Hact; simpl in Hs;
    [destruct (best_score s <? score tok)%f32 eqn:Hwin |];
    injection Hs as -> ->.
  - split; [lia |]. split; [by eauto |].
    intros j tok' Hj Hj' Hact'.
    destruct (decide (j = n)) as [-> |].
    + rewrite Hn in Hj'. injection Hj' as <-. apply F32_ltb_irrefl.
    + eapply F32_new_best; [done |]. eapply Hall; [| done | done]. lia.
  - split; [lia |]. split; [by eauto |].
    intros j tok' Hj Hj' Hact'.
    destruct (decide (j = n)) as [-> |].
    + rewrite Hn in Hj'. by injection Hj' as <-.
    + eapply Hall; [| done | done]. lia.
  - split; [lia |]. split; [by eauto |].
    intros j tok' Hj Hj' Hact'.
    destruct (decide (j = n)) as [-> |].
    + rewrite Hn in Hj'. injection Hj' as <-. congruence.
    + eapply Hall; [| done | done]. lia.
Qed.

Lemma scan_state_best_final_of cur n s tok :
  (1 ≤ n)%nat →
  cur !! n = Some tok →
  best_final_of fst_ cur n s → best_final_of fst_ cur (S n) (scan_state s n tok).
Proof.
  intros Hpos Hn [Hnone Hsome].
  pose proof (scan_state_final s n tok) as Hs. unfold best_final_of.
  destruct (active tok && IsFinal fst_ n) eqn:Hcand.
  - apply andb_true_iff in Hcand as [Hact Hfin].
    assert (final_candidate fst_ cur n tok) as Hc by done.
    destruct (reach_final s) eqn:Hrf; simpl in Hs;
      [destruct (best_final_score s <? score tok)%f32 eqn:Hwin |];
      injection Hs as Hi Hsc Hr; split; rewrite Hr; try discriminate;
      intros _; rewrite Hi, ?Hsc.
    + destruct (Hsome eq_refl) as (_ & btok & _ & Hbs & Hall).
      split; [lia |]. exists tok. repeat split; try done.
      intros j tok' Hj Hj'.
      destruct (decide (j = n)) as [-> |].
      * destruct Hj' as (Hj' & _). rewrite Hn in Hj'. injection Hj' as <-.
        apply F32_ltb_irrefl.
      * eapply F32_new_best; [exact Hwin |].
        rewrite Hbs. eapply Hall; [| done]. lia.
    + destruct (Hsome eq_refl) as (Hin & btok & Hbc & Hbs & Hall).
      split; [lia |]. exists btok. repeat split; try done; try apply Hbc.
      intros j tok' Hj Hj'.
      destruct (decide (j = n)) as [-> |].
      * destruct Hj' as (Hj' & _). rewrite Hn in Hj'. injection Hj' as <-.
        by rewrite <- Hbs.
      * eapply Hall; [| done]. lia.
    + split; [lia |]. exists tok. repeat split; try done.
      intros j tok' Hj (Hj' & Hact' & Hfin').
      destruct (decide (j = n)) as [-> |].
      * rewrite Hn in Hj'. injection Hj' as <-. apply F32_ltb_irrefl.
      * specialize (Hnone eq_refl j tok' ltac:(lia) Hj').
        rewrite Hact', Hfin' in Hnone. discriminate.
  - injection Hs as Hi Hsc Hr. split; rewrite Hr.
    + intros Hrf j tok' Hj Hj'.
      destruct (decide (j = n)) as [-> |].
      * rewrite Hn in Hj'. by injection Hj' as <-.
      * eapply Hnone; [done | | done]. lia.
    + intros Hrf. rewrite Hi, Hsc.
      destruct (Hsome Hrf) as (Hin & btok & Hbc & Hbs & Hall).
      split; [lia |]. exists btok. repeat split; try done; try apply Hbc.
      intros j tok' Hj (Hj' & Hact' & Hfin').
      destruct (decide (j = n)) as [-> |].
      * rewrite Hn in Hj'. injection Hj' as <-.
        rewrite Hact', Hfin' in Hcand. discriminate.
      * eapply Hall; [| done]. lia.
Qed.

Lemma scan_from_scanned cur n rest s :
  (1 ≤ n ≤ length cur)%nat →
  drop n cur = rest →
  scanned fst_ cur n s →
  scanned fst_ cur (length cur) (scan_from n rest s).
Proof.
  revert n s. induction rest as [| tok rest IH]; intros n s Hn Hdrop Hs; simpl.
  - apply drop_nil_inv in Hdrop.
    by replace (length cur) with n by lia.
  - assert (cur !! n = Some tok) as Htok.
    { rewrite <- (Nat.add_0_r n), <- lookup_drop, Hdrop. done. }
    pose proof (lookup_lt_Some _ _ _ Htok) as Hlt.
    rewrite (drop_S _ _ _ Htok) in Hdrop. injection Hdrop as Hdrop.
    apply IH; [lia | done |].
    destruct Hs as [Hbest Hfinal].
    split; [by apply scan_state_best_of |].
    apply scan_state_best_final_of; [lia | done | done].
Qed.

(** The selection of [Spot] over the whole buffer. *)
Lemma find_best_scanned cur s :
  find_best cur = Ok s → scanned fst_ cur (length cur) s.
Proof.
  unfold find_best. intros H.
  apply bind_Ok in H as (first & Hfirst & [= <-]).
  apply at_index_Ok in Hfirst as [_ Hfirst]. simpl in Hfirst.
  pose proof (lookup_lt_Some _ _ _ Hfirst) as Hlen.
  apply scan_from_scanned; [lia | done |].
  split; [split; [| split] | split]; simpl.
  - lia.
  - eauto.
  - intros j tok Hj. lia.
  - intros _ j tok Hj. lia.
  - discriminate.
Qed.

(** The outputs of [Spot] follow the selection. *)
Lemma decision_Ok d cur s out :
  decision d cur s = Ok out →
  (reach_final s = false →
   out = {| legal := false; confidence := F32.zero; spotted_keyword := 0 |})
  ∧ (reach_final s = true →
     ∃ tok, cur !! best_final_state s = Some tok
            ∧ confidence out = expf (average_max_keyword_score tok)
            ∧ spotted_keyword out = keyword tok
            ∧ (legal out = true ↔
               min_keyword_frames_ d ≤ num_keyword_frames tok
               ∧ min_frames_for_last_state_ d ≤ num_frames_of_current_state tok
               ∧ (spot_threshold_ d <? confidence out)%f32 = true)).
Proof.
  unfold decision. destruct (reach_final s).
  - intros H. apply bind_Ok in H as (tok & Htok & [= <-]).
    apply at_index_Ok in Htok as [_ Htok]. rewrite Nat2Z.id in Htok.
    split; [discriminate |]. intros _. exists tok. simpl.
    split; [done |]. split; [done |]. split; [done |].
    rewrite !andb_true_iff, !Z.leb_le. tauto.
  - intros [= <-]. split; [done | discriminate].
Qed.

(** *** The guard *)

Lemma guard_spec num_frames s (prev cur : list Token) best :
  length cur = length prev →
  prev !! best_state s = Some best →
  guard num_frames s prev cur =
    Ok (if (kMaxTokenPassingFrames <? num_frames) && is_filler best
        then replicate (length prev) Token.new else prev).
Proof.
  intros Hlen Hbest. unfold guard.
  destruct (kMaxTokenPassingFrames <? num_frames); [| done].
  rewrite (at_index_lookup _ _ _ Hbest). simpl.
  destruct (is_filler best); [| done].
  rewrite Hlen. apply reset_first_all.
Qed.

(** *** One call of [Spot] *)

Lemma Spot_Ok d am_score num d' out :
  length (prev_tokens_ d) = length (cur_tokens_ d) →
  Spot d am_score num = Ok (d', out) →
  ∃ cur s best,
    propagate d am_score num = Ok cur
    ∧ length cur = length (cur_tokens_ d)
    ∧ find_best cur = Ok s
    ∧ decision d cur s = Ok out
    ∧ cur !! best_state s = Some best
    ∧ d' = {| num_frames_ := wrap32 (num_frames_ d + 1);
              prev_tokens_ :=
                if (kMaxTokenPassingFrames <? wrap32 (num_frames_ d + 1))
                   && is_filler best
                then replicate (length cur) Token.new else cur;
              cur_tokens_ := replicate (length cur) Token.new;
              spot_threshold_ := spot_threshold_ d;
              min_keyword_frames_ := min_keyword_frames_ d;
              min_frames_for_last_state_ := min_frames_for_last_state_ d |}.
Proof.
  intros Hlen H. unfold Spot in H.
  apply bind_Ok in H as (cur & Hcur & H).
  apply bind_Ok in H as (s & Hs & H).
  apply bind_Ok in H as (out' & Hout & H).
  apply bind_Ok in H as (prev2 & Hprev2 & H).
  injection H as <- <-.
  pose proof (pass_from_length _ _ _ _ _ _ Hcur) as Hlcur.
  destruct (find_best_scanned _ _ Hs) as [(Hin & _) _].
  apply lookup_lt_is_Some_2 in Hin as [best Hbest].
  exists cur, s, best. repeat split; try done.
  rewrite (guard_spec _ _ _ _ best) in Hprev2.
  - injection Hprev2 as <-. rewrite fmap_Reset. do 2 f_equal. congruence.
  - rewrite length_fmap. congruence.
  - done.
Qed.

(** X1. What a call of [Spot] returns, read over the states other than state 0:
    when none of them is an active final state, nothing is spotted; when one
    is, the outputs come from an active final state among them that none of
    them beats. *)
Lemma Spot_output d am_score num d' out :
  Spot d am_score num = Ok (d', out) →
  ∃ cur,
    propagate d am_score num = Ok cur
    ∧ ((∀ j tok, (1 ≤ j)%nat → cur !! j = Some tok →
                 active tok && IsFinal fst_ j = false) →
       out = {| legal := false; confidence := F32.zero; spotted_keyword := 0 |})
    ∧ (∀ j tok, (1 ≤ j)%nat → final_candidate fst_ cur j tok →
       ∃ b best,
         (1 ≤ b)%nat ∧ final_candidate fst_ cur b best
         ∧ (∀ j' tok', (1 ≤ j')%nat → final_candidate fst_ cur j' tok' →
                       (score best <? score tok')%f32 = false)
         ∧ confidence out = expf (average_max_keyword_score best)
         ∧ spotted_keyword out = keyword best
         ∧ (legal out = true ↔
            min_keyword_frames_ d ≤ num_keyword_frames best
            ∧ min_frames_for_last_state_ d ≤ num_frames_of_current_state best
            ∧ (spot_threshold_ d <? confidence out)%f32 = true)).
Proof.
  intros H. unfold Spot in H.
  apply bind_Ok in H as (cur & Hcur & H).
  apply bind_Ok in H as (s & Hs & H).
  apply bind_Ok in H as (out' & Hout & H).
  apply bind_Ok in H as (prev2 & _ & H).
  injection H as _ <-.
  exists cur. split; [done |].
  destruct (find_best_scanned _ _ Hs) as [_ [Hnone Hsome]].
  destruct (decision_Ok _ _ _ _ Hout) as [Hno Hyes].
  destruct (reach_final s) eqn:Hrf.
  - destruct (Hsome eq_refl) as (Hb & best & Hbest & _ & Hall).
    destruct (Hyes eq_refl) as (best' & Hbest' & Hconf & Hkey & Hlegal).
    assert (best' = best) as ->.
    { destruct Hbest as (Hlook & _). congruence. }
    split.
    + intros Hnot. destruct Hbest as (Hlook & Hact & Hfin).
      specialize (Hnot _ _ (proj1 Hb) Hlook).
      rewrite Hact, Hfin in Hnot. discriminate.
    + intros j tok Hj Hcand. exists (best_final_state s), best.
      split; [lia |]. split; [done |]. split; [| done].
      intros j' tok' Hj' Hcand'. apply (Hall j'); [| done].
      destruct Hcand' as (Hlook & _). apply lookup_lt_Some in Hlook. lia.
  - split; [auto |].
    intros j tok Hj (Hlook & Hact & Hfin).
    pose proof (lookup_lt_Some _ _ _ Hlook) as Hlt.
    specialize (Hnone eq_refl j tok ltac:(lia) Hlook).
    rewrite Hact, Hfin in Hnone. discriminate.
Qed.

Lemma Spot_lengths d am_score num d' out :
  length (prev_tokens_ d) = length (cur_tokens_ d) →
  Spot d am_score num = Ok (d', out) →
  length (prev_tokens_ d') = length (cur_tokens_ d)
  ∧ length (cur_tokens_ d') = length (cur_tokens_ d).
Proof.
  intros Hlen H.
  destruct (Spot_Ok _ _ _ _ _ Hlen H) as (cur & s & best & _ & Hcur & _ & _ & _ & ->).
  simpl. rewrite length_replicate.
  destruct (_ && _); by rewrite ?length_replicate.
Qed.

(** *** Shape of the decoders the program can hold *)

Lemma since_reset_shape k d :
  since_reset k d →
  (0 < NumStates fst_)%nat
  ∧ length (prev_tokens_ d) = NumStates fst_
  ∧ length (cur_tokens_ d) = NumStates fst_.
Proof.
  induction 1 as [d Hnew | k d d' _ IH HR | k d am_score num d' out _ IH HS
                  | k d x _ IH | k d x _ IH | k d x _ IH]; try done.
  - apply Reset_Ok in Hnew as (n & Hn & -> & -> & _). simpl in *.
    rewrite !length_replicate in *. lia.
  - destruct IH as (Hpos & Hprev & Hcur).
    apply Reset_Ok in HR as (n & Hn & -> & -> & _).
    simpl. rewrite !length_replicate. lia.
  - destruct IH as (Hpos & Hprev & Hcur).
    apply Spot_lengths in HS as [-> ->]; [done | congruence].
Qed.

(** *** Counts of keyword states *)

Lemma Update_counted k self prev olabel is_self_arc filler am_score self' :
  0 ≤ k → k + 1 ≤ INT_MAX →
  counted k prev → counted (k + 1) self →
  Token.Update self prev olabel is_self_arc filler am_score = Ok self' →
  counted (k + 1) self'.
Proof.
  unfold counted, INT_MAX. intros Hk Hmax Hprev Hself Hup.
  unfold Token.Update in Hup.
  apply bind_Ok in Hup as (tok & Htok & [= <-]). simpl.
  destruct (Token.wins self prev am_score); [| by injection Htok as <-].
  destruct filler; simpl in Htok; [by injection Htok as <- |].
  apply keyword_update_Ok in Htok as (_ & _ & _ & -> & Hcheck).
  destruct is_self_arc; [lia |].
  rewrite wrap32_small; lia.
Qed.

Lemma pass_arc_counted k am_score num i prev cur arc cur' :
  0 ≤ k → k + 1 ≤ INT_MAX →
  counted k prev → Forall (counted (k + 1)) cur →
  pass_arc am_score num i prev cur arc = Ok cur' →
  Forall (counted (k + 1)) cur'.
Proof.
  intros Hk Hmax Hprev Hcur (self & self' & x & Hself & Hup & ->)%pass_arc_Ok.
  apply Forall_insert; [done |].
  eapply Update_counted; [done | done | done | | done].
  eapply Forall_lookup_1; done.
Qed.

Lemma pass_arcs_counted k am_score num i prev arcs cur cur' :
  0 ≤ k → k + 1 ≤ INT_MAX →
  counted k prev → Forall (counted (k + 1)) cur →
  pass_arcs am_score num i prev arcs cur = Ok cur' →
  Forall (counted (k + 1)) cur'.
Proof.
  intros Hk Hmax Hprev. revert cur.
  induction arcs as [| arc rest IH]; intros cur Hcur H; simpl in H.
  - by injection H as <-.
  - apply bind_Ok in H as (cur1 & Hcur1 & H).
    eapply IH; [| done]. eauto using pass_arc_counted.
Qed.

Lemma pass_from_counted k am_score num i prevs cur cur' :
  0 ≤ k → k + 1 ≤ INT_MAX →
  Forall (counted k) prevs → Forall (counted (k + 1)) cur →
  pass_from am_score num i prevs cur = Ok cur' →
  Forall (counted (k + 1)) cur'.
Proof.
  intros Hk Hmax. revert i cur.
  induction prevs as [| prev rest IH]; intros i cur Hprevs Hcur H; simpl in H.
  - by injection H as <-.
  - apply Forall_cons in Hprevs as [Hprev Hrest].
    apply bind_Ok in H as (cur1 & Hcur1 & H).
    eapply IH; [done | | done].
    destruct (active prev); [eauto using pass_arcs_counted |].
    by injection Hcur1 as <-.
Qed.

Lemma counted_new k : 0 ≤ k → counted k Token.new.
Proof. unfold counted. simpl. lia. Qed.

Lemma counted_mono k k' tok : k ≤ k' → counted k tok → counted k' tok.
Proof. unfold counted. lia. Qed.

(** After [k] frames no token of the previous-frame buffer counts more
    than [k] keyword states, and the current-frame buffer is clear. *)
Lemma since_reset_counted k d :
  since_reset k d →
  Z.of_nat k ≤ INT_MAX →
  Forall (counted (Z.of_nat k)) (prev_tokens_ d)
  ∧ Forall (counted 0) (cur_tokens_ d).
Proof.
  induction 1 as [d Hnew | k d d' _ _ HR | k d am_score num d' out Hd IH HS
                  | k d x _ IH | k d x _ IH | k d x _ IH]; intros Hmax;
    try (by apply IH).
  - apply Reset_Ok in Hnew as (n & _ & -> & -> & _). split.
    + apply Forall_cons. split; [by apply counted_new |].
      by apply Forall_replicate, counted_new.
    + by apply Forall_replicate, counted_new.
  - apply Reset_Ok in HR as (n & _ & -> & -> & _). split.
    + apply Forall_cons. split; [by apply counted_new |].
      by apply Forall_replicate, counted_new.
    + by apply Forall_replicate, counted_new.
  - destruct IH as [Hprev Hcur]; [lia |].
    destruct (since_reset_shape _ _ Hd) as (_ & Hlp & Hlc).
    apply Spot_Ok in HS as (cur & s & best & Hprop & _ & _ & _ & _ & ->);
      [| congruence].
    simpl. split; [| by apply Forall_replicate, counted_new].
    assert (Forall (counted (Z.of_nat (S k))) cur) as Hcounted.
    { replace (Z.of_nat (S k)) with (Z.of_nat k + 1) by lia.
      eapply pass_from_counted; [lia | lia | done | | done].
      eapply Forall_impl; [done |].
      intros tok. apply counted_mono. lia. }
    destruct (_ && _); [| done].
    apply Forall_replicate, counted_new. lia.
Qed.

(** C7. In a decoder that has run fewer than [INT_MAX] frames since it was
    constructed or reset, take any token [prev] of the previous-frame
    buffer and any update from it.  If a winning update over a keyword
    self-arc only happens with [prev.num_keyword_states > 0], then the
    [CHECK] of [Update] does not fire, and after every winning update over
    a keyword arc the divisor [num_keyword_states] is at least 1. *)
Theorem Update_divisor_positive k d prev self olabel is_self_arc filler am_score :
  since_reset k d →
  Z.of_nat k < INT_MAX →
  prev ∈ prev_tokens_ d →
  (Token.wins self prev am_score = true → filler = false →
   is_self_arc = true → 0 < num_keyword_states prev) →
  ∃ self',
    Token.Update self prev olabel is_self_arc filler am_score = Ok self'
    ∧ (Token.wins self prev am_score = true → filler = false →
       1 ≤ num_keyword_states self').
Proof.
  intros Hd Hk Hin Hpre.
  destruct (since_reset_counted _ _ Hd) as [Hprev _]; [lia |].
  assert (counted (Z.of_nat k) prev) as [Hlo Hhi].
  { eapply Forall_forall; done. }
  unfold Token.Update.
  destruct (Token.wins self prev am_score); simpl; [| by eexists].
  destruct filler; simpl; [by eexists |].
  destruct (keyword_update_total
              (Token.set_score self (score prev + am_score)%f32)
              prev olabel is_self_arc am_score) as [tok Htok]; [by auto |].
  rewrite Htok. simpl. eexists. split; [done |]. intros _ _. simpl.
  apply keyword_update_Ok in Htok as (_ & _ & _ & -> & Hcheck).
  destruct is_self_arc; [specialize (Hcheck eq_refl); lia |].
  unfold INT_MAX in Hk. rewrite wrap32_small; lia.
Qed.

(** *** [Reset] against a new decoder *)

Lemma reachable_Reset d :
  reachable d →
  Reset d = Ok (armed (pred (NumStates fst_)) (spot_threshold_ d)
                  (min_keyword_frames_ d) (min_frames_for_last_state_ d)).
Proof.
  intros [k (Hpos & Hprev & Hcur)%since_reset_shape].
  apply Reset_armed; lia.
Qed.

Lemma reachable_fresh_like d :
  reachable d →
  fresh_like d = Ok (armed (pred (NumStates fst_)) (spot_threshold_ d)
                       (min_keyword_frames_ d) (min_frames_for_last_state_ d)).
Proof.
  intros [k (Hpos & _)%since_reset_shape].
  unfold fresh_like, construct.
  rewrite (Reset_armed _ (pred (NumStates fst_)));
    simpl; rewrite ?length_replicate; [done | lia | lia].
Qed.

(** C9. For a decoder in any state the program can reach, and for every
    finite sequence of frames: [Reset] returns, a decoder constructed anew
    over the same transducer and filler table and given the same
    configuration exists, and feeding the frames to the one and to the
    other gives the same outputs, call by call. *)
Theorem Reset_replays_fresh d frames :
  reachable d →
  ∃ d_reset d_fresh,
    Reset d = Ok d_reset
    ∧ fresh_like d = Ok d_fresh
    ∧ feed d_reset frames = feed d_fresh frames.
Proof.
  intros Hd. eexists _, _.
  split; [by apply reachable_Reset |].
  split; [by apply reachable_fresh_like |].
  done.
Qed.

(** C3. A call of [Spot] on buffers of one length that returns has added 1
    to the frame counter (within 32 bits; exactly 1 below [INT_MAX]), and it
    has cleared the previous-frame buffer, every token reset and none
    active, state 0 included, exactly when the new counter exceeds 60000
    and the token of the best state that the selection found is classified
    as filler; otherwise the previous-frame buffer is the buffer that
    propagation filled. *)
Theorem Spot_overflow_guard d am_score num d' out :
  length (prev_tokens_ d) = length (cur_tokens_ d) →
  Spot d am_score num = Ok (d', out) →
  ∃ cur s best,
    propagate d am_score num = Ok cur
    ∧ find_best cur = Ok s
    ∧ cur !! best_state s = Some best
    ∧ num_frames_ d' = wrap32 (num_frames_ d + 1)
    ∧ (0 ≤ num_frames_ d < INT_MAX → num_frames_ d' = num_frames_ d + 1)
    ∧ prev_tokens_ d' =
        (if (60000 <? num_frames_ d') && is_filler best
         then replicate (length cur) Token.new
         else cur).
Proof.
  intros Hlen HS.
  apply Spot_Ok in HS as (cur & s & best & Hprop & _ & Hs & _ & Hbest & ->);
    [| done].
  exists cur, s, best. simpl. repeat (split; [done |]).
  split; [| done].
  unfold INT_MAX. intros Hn. apply wrap32_small. lia.
Qed.

End DecoderFacts.

(** ** The decoder on concrete transducers *)

Lemma keyword_decoder_constructed :
  construct Scenario.keyword_fst = Ok Scenario.keyword_decoder.
Proof. reflexivity. Qed.

Lemma Spot_phone2 :
  Spot Scenario.keyword_fst Scenario.filler_table Scenario.logf Scenario.expf
    Scenario.keyword_decoder Scenario.phone2.1 Scenario.phone2.2
  = Ok (Scenario.after_phone2, Scenario.nothing).
Proof. vm_compute. reflexivity. Qed.

Lemma after_phone2_since_reset :
  since_reset Scenario.keyword_fst Scenario.filler_table Scenario.logf
    Scenario.expf 1 Scenario.after_phone2.
Proof.
  eapply sr_Spot; [| exact Spot_phone2].
  apply sr_construct, keyword_decoder_constructed.
Qed.

(** An instance: the self-arc of state 1 one frame after the keyword path
    was entered. *)
Lemma Update_divisor_positive_witness :
  ∃ self',
    Token.Update Token.new Scenario.entered 0 true false F32.zero = Ok self'
    ∧ (Token.wins Token.new Scenario.entered F32.zero = true → false = false →
       1 ≤ num_keyword_states self').
Proof.
  apply (Update_divisor_positive Scenario.keyword_fst Scenario.filler_table
           Scenario.logf Scenario.expf 1 Scenario.after_phone2).
  - exact after_phone2_since_reset.
  - reflexivity.
  - apply list_elem_of_lookup_2 with 1%nat. reflexivity.
  - intros _ _ _. reflexivity.
Defined.

(** An instance: [Reset] of the decoder that has seen one frame. *)
Lemma Reset_state_witness :
  (0 < length (prev_tokens_ Scenario.after_phone2))%nat
  ∧ ∃ d',
      Reset Scenario.after_phone2 = Ok d'
      ∧ (∃ start, prev_tokens_ d' !! 0%nat = Some start
                  ∧ active start = true ∧ zeroed start)
      ∧ (∀ i tok, (0 < i)%nat → prev_tokens_ d' !! i = Some tok →
                  active tok = false ∧ zeroed tok)
      ∧ (∀ i tok, cur_tokens_ d' !! i = Some tok →
                  active tok = false ∧ zeroed tok)
      ∧ length (prev_tokens_ d') = length (prev_tokens_ Scenario.after_phone2)
      ∧ length (cur_tokens_ d') = length (cur_tokens_ Scenario.after_phone2)
      ∧ num_frames_ d' = 0.
Proof.
  assert (0 < length (prev_tokens_ Scenario.after_phone2))%nat as Hlen.
  { simpl. lia. }
  split; [exact Hlen |].
  exact (Reset_state Scenario.after_phone2 Hlen).
Defined.

(** An instance: five frames replayed after [Reset] and on a new decoder. *)
Lemma Reset_replays_fresh_witness :
  let frames :=
    [Scenario.silence; Scenario.phone2; Scenario.phone2; Scenario.phone3;
     Scenario.phone3] in
  ∃ d_reset d_fresh,
    Reset Scenario.after_phone2 = Ok d_reset
    ∧ fresh_like Scenario.keyword_fst Scenario.after_phone2 = Ok d_fresh
    ∧ feed Scenario.keyword_fst Scenario.filler_table Scenario.logf Scenario.expf
        d_reset frames
      = feed Scenario.keyword_fst Scenario.filler_table Scenario.logf Scenario.expf
          d_fresh frames.
Proof.
  apply (Reset_replays_fresh Scenario.keyword_fst Scenario.filler_table
           Scenario.logf Scenario.expf).
  exists 1%nat. exact after_phone2_since_reset.
Defined.

(** An instance: the first frame, far below the ceiling. *)
Lemma Spot_overflow_guard_witness :
  ∃ cur s best,
    propagate Scenario.keyword_fst Scenario.filler_table Scenario.logf
      Scenario.keyword_decoder Scenario.phone2.1 Scenario.phone2.2 = Ok cur
    ∧ find_best Scenario.keyword_fst cur = Ok s
    ∧ cur !! best_state s = Some best
    ∧ num_frames_ Scenario.after_phone2
      = wrap32 (num_frames_ Scenario.keyword_decoder + 1)
    ∧ (0 ≤ num_frames_ Scenario.keyword_decoder < INT_MAX →
       num_frames_ Scenario.after_phone2
       = num_frames_ Scenario.keyword_decoder + 1)
    ∧ prev_tokens_ Scenario.after_phone2 =
        (if (60000 <? num_frames_ Scenario.after_phone2) && is_filler best
         then replicate (length cur) Token.new
         else cur).
Proof.
  apply (Spot_overflow_guard Scenario.keyword_fst Scenario.filler_table
           Scenario.logf Scenario.expf Scenario.keyword_decoder
           Scenario.phone2.1 Scenario.phone2.2 Scenario.after_phone2
           Scenario.nothing).
  - reflexivity.
  - exact Spot_phone2.
Defined.

(** C3, against the ceiling of the specification.  The decoder of
    [silence_fst] runs 60000 frames of silence, state 0 looping on the
    filler phone.  The next call finds state 0 active after propagation,
    brings the counter to 60001, which does not exceed 600000, and yet
    leaves the previous-frame buffer cleared. *)
Lemma guard_fires_below_spec_ceiling :
  let frames := replicate (Z.to_nat 60000) Scenario.silence in
  ∃ d0 d cur d' out,
    construct Scenario.silence_fst = Ok d0
    ∧ run Scenario.silence_fst Scenario.filler_table Scenario.logf Scenario.expf
        d0 frames = Ok d
    ∧ propagate Scenario.silence_fst Scenario.filler_table Scenario.logf
        d Scenario.silence.1 Scenario.silence.2 = Ok cur
    ∧ active <$> cur = [true]
    ∧ Spot Scenario.silence_fst Scenario.filler_table Scenario.logf Scenario.expf
        d Scenario.silence.1 Scenario.silence.2 = Ok (d', out)
    ∧ num_frames_ d' = 60001
    ∧ (spec_ceiling <? num_frames_ d') = false
    ∧ prev_tokens_ d' = [Token.new].
Proof.
  do 5 eexists.
  split; [reflexivity |].
  split; [vm_compute; reflexivity |].
  split; [vm_compute; reflexivity |].
  split; [reflexivity |].
  split; [vm_compute; reflexivity |].
  split; [reflexivity |].
  split; reflexivity.
Qed.

(** C4, at a transducer whose start state has no loop.  After the first
    frame state 1 is the only active state, with the score [ln 0.5], and
    the selection returns state 0, which is not active.  At a transducer
    whose start state is final, the final state 0 is active after two
    frames and the selection reports that no final state was reached. *)
Lemma find_best_start_state :
  (∃ d cur s,
     construct Scenario.no_loop_fst = Ok d
     ∧ propagate Scenario.no_loop_fst Scenario.filler_table Scenario.logf
         d Scenario.all_halves.1 Scenario.all_halves.2 = Ok cur
     ∧ active <$> cur = [false; true]
     ∧ score <$> cur = [F32.zero; Scenario.neg_ln2]
     ∧ find_best Scenario.no_loop_fst cur = Ok s
     ∧ best_state s = 0%nat)
  ∧ (∃ d0 d cur s,
       construct Scenario.final_start_fst = Ok d0
       ∧ run Scenario.final_start_fst Scenario.filler_table Scenario.logf
           Scenario.expf d0 [Scenario.all_ones] = Ok d
       ∧ propagate Scenario.final_start_fst Scenario.filler_table Scenario.logf
           d Scenario.all_ones.1 Scenario.all_ones.2 = Ok cur
       ∧ active <$> cur = [true; false]
       ∧ IsFinal Scenario.final_start_fst 0 = true
       ∧ find_best Scenario.final_start_fst cur = Ok s
       ∧ reach_final s = false).
Proof.
  split.
  - do 3 eexists.
    split; [reflexivity |].
    split; [vm_compute; reflexivity |].
    split; [reflexivity |].
    split; [reflexivity |].
    split; [vm_compute; reflexivity |].
    reflexivity.
  - do 4 eexists.
    split; [reflexivity |].
    split; [vm_compute; reflexivity |].
    split; [vm_compute; reflexivity |].
    split; [reflexivity |].
    split; [reflexivity |].
    split; [vm_compute; reflexivity |].
    reflexivity.
Qed.

(** C1, at a transducer whose start state is final.  With the minimum of
    frames for the last state set to 1, the second frame leaves the final
    state 0 active with the keyword 7, two keyword frames, one frame in the
    state and a confidence [expf 0 = 1] above the threshold; [Spot] returns
    no spotting, the confidence 0 and the keyword 0. *)
Lemma Spot_skips_final_start_state :
  ∃ d0 d cur tok d' out,
    construct Scenario.final_start_fst = Ok d0
    ∧ run Scenario.final_start_fst Scenario.filler_table Scenario.logf
        Scenario.expf (SetMinFramesForLastState d0 1) [Scenario.all_ones] = Ok d
    ∧ propagate Scenario.final_start_fst Scenario.filler_table Scenario.logf
        d Scenario.all_ones.1 Scenario.all_ones.2 = Ok cur
    ∧ cur !! 0%nat = Some tok
    ∧ active tok = true
    ∧ IsFinal Scenario.final_start_fst 0 = true
    ∧ keyword tok = 7
    ∧ (min_keyword_frames_ d <=? num_keyword_frames tok) = true
    ∧ (min_frames_for_last_state_ d <=? num_frames_of_current_state tok) = true
    ∧ Scenario.expf (average_max_keyword_score tok) = F32.one
    ∧ (spot_threshold_ d <? F32.one)%f32 = true
    ∧ Spot Scenario.final_start_fst Scenario.filler_table Scenario.logf
        Scenario.expf d Scenario.all_ones.1 Scenario.all_ones.2 = Ok (d', out)
    ∧ out = Scenario.nothing.
Proof.
  do 6 eexists.
  split; [reflexivity |].
  split; [vm_compute; reflexivity |].
  split; [vm_compute; reflexivity |].
  split; [reflexivity |].
  do 7 (split; [reflexivity |]).
  split; [vm_compute; reflexivity |].
  reflexivity.
Qed.

(** * Further properties of the decoder *)

(** ** One update, seen from the destination *)

Lemma Update_Ok_cases self prev olabel is_self_arc filler am_score self' :
  Token.Update self prev olabel is_self_arc filler am_score = Ok self' →
  active self' = true
  ∧ ((Token.wins self prev am_score = true
      ∧ score self' = (score prev + am_score)%f32)
     ∨ (Token.wins self prev am_score = false
        ∧ active self = true
        ∧ (score self <? score prev + am_score)%f32 = false
        ∧ self' = Token.mark self filler)).
Proof.
  intros Hup. destruct (Token.wins self prev am_score) eqn:Hw.
  - unfold Token.Update in Hup. rewrite Hw in Hup.
    apply bind_Ok in Hup as (tok & Htok & [= <-]). simpl.
    split; [done |]. left. split; [done |].
    destruct filler; simpl in Htok.
    + by injection Htok as <-.
    + by apply keyword_update_Ok in Htok as (_ & _ & -> & _).
  - rewrite (Update_lost _ _ _ _ _ _ Hw) in Hup. injection Hup as <-.
    apply wins_false in Hw as [Hact Hlt]. split; [done |]. right. done.
Qed.

(** The score of an updated token is not beaten by the score it was
    offered. *)
Lemma Update_covers_offer self prev olabel is_self_arc filler am_score self' :
  Token.Update self prev olabel is_self_arc filler am_score = Ok self' →
  (score self' <? score prev + am_score)%f32 = false.
Proof.
  intros (_ & [[_ ->] | (_ & _ & Hlt & ->)])%Update_Ok_cases.
  - apply F32_ltb_irrefl.
  - done.
Qed.

(** A score that did not beat an active token does not beat it after a
    later update. *)
Lemma Update_keeps_cover self prev olabel is_self_arc filler am_score self' c :
  Token.Update self prev olabel is_self_arc filler am_score = Ok self' →
  active self = true → (score self <? c)%f32 = false →
  (score self' <? c)%f32 = false.
Proof.
  intros (_ & [[Hw ->] | (_ & _ & _ & ->)])%Update_Ok_cases Hact Hc; [| done].
  apply wins_spec in Hw as [Hw | Hw]; [congruence |].
  by eapply F32_new_best.
Qed.

(** The keyword of an updated token is the one the token had or the output
    label of the arc, never the keyword of [prev]. *)
Lemma Update_keyword self prev olabel is_self_arc filler am_score self' :
  Token.Update self prev olabel is_self_arc filler am_score = Ok self' →
  keyword self' = keyword self ∨ keyword self' = olabel.
Proof.
  unfold Token.Update. intros Hup.
  apply bind_Ok in Hup as (tok & Htok & [= <-]). simpl.
  destruct (Token.wins self prev am_score); [| injection Htok as <-; by left].
  destruct filler; simpl in Htok; [injection Htok as <-; by left |].
  unfold Token.keyword_update in Htok.
  apply bind_Ok in Htok as ([[[dwell states] peak] before] & _ & [= <-]).
  simpl. destruct (olabel =? 0); auto.
Qed.

Section Propagation.

Context (fst_ : Fst) (filler_table_ : SymbolTable).
Context (logf expf : F32.t → F32.t).

Local Abbreviation pass_arc := (pass_arc filler_table_ logf).
Local Abbreviation pass_arcs := (pass_arcs filler_table_ logf).
Local Abbreviation pass_from := (pass_from fst_ filler_table_ logf).
Local Abbreviation propagate := (propagate fst_ filler_table_ logf).
Local Abbreviation find_best := (find_best fst_).
Local Abbreviation scan_from := (scan_from fst_).
Local Abbreviation scan_state := (scan_state fst_).
Local Abbreviation decision := (decision expf).
Local Abbreviation Spot := (Spot fst_ filler_table_ logf expf).
Local Abbreviation construct := (construct fst_).
Local Abbreviation feed := (feed fst_ filler_table_ logf expf).
Local Abbreviation since_reset := (since_reset fst_ filler_table_ logf expf).
Local Abbreviation reachable := (reachable fst_ filler_table_ logf expf).

(** *** What passing an arc involves *)

Lemma pass_arc_checked am_score num i prev cur arc cur' :
  pass_arc am_score num i prev cur arc = Ok cur' →
  0 ≤ next_state arc < Z.of_nat (length cur)
  ∧ ilabel arc ≤ num
  ∧ ∃ x self self',
      at_index am_score (wrap32 (ilabel arc - 1)) = Ok x
      ∧ arc_score logf am_score arc = Some (logf x)
      ∧ cur !! Z.to_nat (next_state arc) = Some self
      ∧ Token.Update self prev (olabel arc) (Z.of_nat i =? next_state arc)
          (IsFillerPhone filler_table_ (ilabel arc)) (logf x) = Ok self'
      ∧ cur' = <[Z.to_nat (next_state arc) := self']> cur.
Proof.
  unfold pass_arc. intros H.
  apply bind_Ok in H as (u1 & H1 & H).
  apply bind_Ok in H as (u2 & H2 & H).
  apply bind_Ok in H as (u3 & H3 & H).
  apply bind_Ok in H as (x & Hx & H). cbv zeta in H.
  apply bind_Ok in H as (self & Hself & H).
  apply bind_Ok in H as (self' & Hup & [= <-]).
  unfold CHECK in H1, H2, H3.
  destruct (Z.leb_spec 0 (next_state arc)); [| discriminate].
  destruct (Z.ltb_spec (next_state arc) (Z.of_nat (length cur)));
    [| discriminate].
  destruct (Z.leb_spec (ilabel arc) num); [| discriminate].
  apply at_index_Ok in Hself as [_ Hself].
  split; [lia |]. split; [done |].
  exists x, self, self'. unfold arc_score. rewrite Hx. done.
Qed.

(** *** Induction over the arcs that propagation passes *)

Lemma pass_arcs_invariant (Inv : list Token → Prop) am_score num i prev
    arcs cur cur' :
  (∀ arc c c', arc ∈ arcs → Inv c →
               pass_arc am_score num i prev c arc = Ok c' → Inv c') →
  Inv cur → pass_arcs am_score num i prev arcs cur = Ok cur' → Inv cur'.
Proof.
  revert cur. induction arcs as [| arc rest IH]; intros cur Hstep Hcur H;
    simpl in H.
  - by injection H as <-.
  - apply bind_Ok in H as (cur1 & Hcur1 & H).
    eapply IH; [| | done].
    + intros arc' c c' Hin. apply Hstep. by right.
    + eapply Hstep; [| done | done]. by left.
Qed.

Lemma pass_from_invariant (Inv : list Token → Prop) am_score num i prevs
    cur cur' :
  (∀ k prev arc c c',
     prevs !! k = Some prev → active prev = true →
     arc ∈ Arcs fst_ (i + k) → Inv c →
     pass_arc am_score num (i + k) prev c arc = Ok c' → Inv c') →
  Inv cur → pass_from am_score num i prevs cur = Ok cur' → Inv cur'.
Proof.
  revert i cur. induction prevs as [| prev rest IH]; intros i cur Hstep Hcur H;
    simpl in H.
  - by injection H as <-.
  - apply bind_Ok in H as (cur1 & Hcur1 & H).
    eapply IH; [| | done].
    + intros k prev' arc c c' Hk. replace (S i + k)%nat with (i + S k)%nat by lia.
      by apply Hstep.
    + destruct (active prev) eqn:Hact; [| by injection Hcur1 as <-].
      eapply pass_arcs_invariant; [| done | done].
      intros arc c c' Hin. specialize (Hstep 0%nat prev arc c c').
      rewrite Nat.add_0_r in Hstep. by apply Hstep.
Qed.

(** A property of the current-frame buffer that passing an arc from an
    active state keeps holds after propagation. *)
Lemma propagate_invariant (Inv : list Token → Prop) d am_score num cur' :
  (∀ i prev arc c c',
     prev_tokens_ d !! i = Some prev → active prev = true →
     arc ∈ Arcs fst_ i → Inv c →
     pass_arc am_score num i prev c arc = Ok c' → Inv c') →
  Inv (cur_tokens_ d) → propagate d am_score num = Ok cur' → Inv cur'.
Proof.
  intros Hstep. unfold propagate. apply pass_from_invariant.
  intros k prev arc c c'. apply Hstep.
Qed.

Lemma pass_arcs_each (Q : list Token → Prop) am_score num i prev arcs
    cur cur' arc :
  (∀ c c', pass_arc am_score num i prev c arc = Ok c' → Q c') →
  (∀ arc' c c', Q c → pass_arc am_score num i prev c arc' = Ok c' → Q c') →
  arc ∈ arcs → pass_arcs am_score num i prev arcs cur = Ok cur' → Q cur'.
Proof.
  intros Hest Hkeep. revert cur.
  induction arcs as [| arc0 rest IH]; intros cur Hin H; simpl in H.
  - by apply elem_of_nil in Hin.
  - apply bind_Ok in H as (cur1 & Hcur1 & H).
    apply elem_of_cons in Hin as [-> | Hin]; [| by eapply IH].
    eapply (pass_arcs_invariant Q); [| | done].
    + intros arc' c c' _. apply Hkeep.
    + by eapply Hest.
Qed.

(** A property that passing one arc from an active state brings about,
    and that passing any arc keeps, holds after propagation. *)
Lemma propagate_each (Q : list Token → Prop) d am_score num cur' i prev arc :
  (∀ c c', pass_arc am_score num i prev c arc = Ok c' → Q c') →
  (∀ i' prev' arc' c c',
     Q c → pass_arc am_score num i' prev' c arc' = Ok c' → Q c') →
  prev_tokens_ d !! i = Some prev → active prev = true →
  arc ∈ Arcs fst_ i →
  propagate d am_score num = Ok cur' → Q cur'.
Proof.
  intros Hest Hkeep Hi Hact Hin. unfold propagate.
  assert (∀ j prevs cur,
            prevs !! i = Some prev →
            pass_from am_score num j prevs cur = Ok cur' →
            ∀ arc0, arc0 ∈ Arcs fst_ (j + i) →
              (∀ c c', pass_arc am_score num (j + i) prev c arc0 = Ok c' → Q c') →
              Q cur') as Hgen.
  { clear Hi Hin Hest. induction i as [| i IH]; intros j prevs cur Hi H arc0 Hin Hest.
    - destruct prevs as [| prev0 rest]; [done |]. injection Hi as ->.
      simpl in H. apply bind_Ok in H as (cur1 & Hcur1 & H).
      rewrite Hact in Hcur1. rewrite Nat.add_0_r in Hin, Hest.
      eapply (pass_from_invariant Q); [| | done].
      + intros k prev' arc' c c' _ _ _. apply Hkeep.
      + eapply pass_arcs_each; [done | | done | done].
        intros arc' c c'. apply Hkeep.
    - destruct prevs as [| prev0 rest]; [done |]. simpl in Hi, H.
      apply bind_Ok in H as (cur1 & Hcur1 & H).
      eapply (IH (S j) rest cur1 Hi H arc0).
      + by replace (S j + i)%nat with (j + S i)%nat by lia.
      + by replace (S j + i)%nat with (j + S i)%nat by lia. }
  intros H. by eapply (Hgen 0%nat).
Qed.

(** *** The scores after propagation *)

(** Whatever arcs are passed later, the destination of a passed arc stays
    active with a score that the arc's offer does not beat. *)
Lemma pass_arc_keeps_cover am_score num i prev cur arc cur' j c :
  pass_arc am_score num i prev cur arc = Ok cur' →
  (∃ tok, cur !! j = Some tok ∧ active tok = true
          ∧ (score tok <? c)%f32 = false) →
  ∃ tok, cur' !! j = Some tok ∧ active tok = true
         ∧ (score tok <? c)%f32 = false.
Proof.
  intros (_ & _ & x & self & self' & _ & _ & Hself & Hup & ->)%pass_arc_checked
         (tok & Htok & Hact & Hc).
  destruct (decide (Z.to_nat (next_state arc) = j)) as [<- |].
  - rewrite Hself in Htok. injection Htok as ->.
    exists self'. rewrite list_lookup_insert_eq by by eapply lookup_lt_Some.
    split; [done |]. split; [by apply Update_Ok_cases in Hup as [? _] |].
    by eapply Update_keeps_cover.
  - exists tok. by rewrite list_lookup_insert_ne.
Qed.

(** X8. After a propagation that returns, the destination of every arc
    that leaves a state active in the previous frame is active, and its
    score is not beaten by what the arc offers: the score of the source
    plus the score of the arc's phone. *)
Theorem propagate_score_maximal d am_score num cur' i prev arc :
  propagate d am_score num = Ok cur' →
  prev_tokens_ d !! i = Some prev → active prev = true →
  arc ∈ Arcs fst_ i →
  ∃ x tok,
    arc_score logf am_score arc = Some x
    ∧ cur' !! Z.to_nat (next_state arc) = Some tok
    ∧ active tok = true
    ∧ (score tok <? score prev + x)%f32 = false.
Proof.
  intros Hprop Hi Hact Hin.
  eapply (propagate_each
            (λ c, ∃ x tok,
               arc_score logf am_score arc = Some x
               ∧ c !! Z.to_nat (next_state arc) = Some tok
               ∧ active tok = true
               ∧ (score tok <? score prev + x)%f32 = false));
    [| | done | done | done | done].
  - intros c c' (_ & _ & x & self & self' & _ & Hx & Hself & Hup & ->)%pass_arc_checked.
    exists (logf x), self'.
    rewrite list_lookup_insert_eq by by eapply lookup_lt_Some.
    split; [done |]. split; [done |].
    split; [by apply Update_Ok_cases in Hup as [? _] |].
    by eapply Update_covers_offer.
  - intros i' prev' arc' c c' (x & tok & Hx & Hcover) Hpass.
    exists x. destruct (pass_arc_keeps_cover _ _ _ _ _ _ _ _ _ Hpass
                          (ex_intro _ tok Hcover)) as (tok' & Htok').
    by exists tok'.
Qed.

(** X9. After a propagation into a buffer with no active token, the score
    of every active token is the offer of an arc that enters its state from
    a state active in the previous frame; a state that no such arc enters
    is not active. *)
Theorem propagate_score_attained d am_score num cur' j tok :
  propagate d am_score num = Ok cur' →
  Forall (λ t, active t = false) (cur_tokens_ d) →
  cur' !! j = Some tok → active tok = true →
  ∃ i prev arc x,
    enters fst_ (prev_tokens_ d) i prev arc j
    ∧ arc_score logf am_score arc = Some x
    ∧ score tok = (score prev + x)%f32.
Proof.
  intros Hprop Hclear. revert j tok.
  eapply (propagate_invariant
            (λ c, ∀ j tok, c !! j = Some tok → active tok = true →
               ∃ i prev arc x,
                 enters fst_ (prev_tokens_ d) i prev arc j
                 ∧ arc_score logf am_score arc = Some x
                 ∧ score tok = (score prev + x)%f32)); [| | done].
  - intros i prev arc c c' Hi Hact Hin Hinv
      ([Hns _] & _ & x & self & self' & _ & Hx & Hself & Hup & ->)%pass_arc_checked
      j tok Hj Htok.
    destruct (decide (Z.to_nat (next_state arc) = j)) as [<- |].
    + rewrite list_lookup_insert_eq in Hj by by eapply lookup_lt_Some.
      injection Hj as <-.
      apply Update_Ok_cases in Hup as (_ & [[_ Hs] | (_ & Hself_act & _ & ->)]).
      * exists i, prev, arc, (logf x). split; [| done].
        repeat split; try done. lia.
      * by apply (Hinv _ self).
    + rewrite list_lookup_insert_ne in Hj by done. by apply (Hinv j).
  - intros j tok Hj Htok. eapply Forall_lookup_1 in Hclear; [| done].
    simpl in Hclear. congruence.
Qed.

(** X10. After a propagation into a buffer whose keywords are 0, the keyword
    of every token is 0 or the output label of an arc that enters its state
    in this frame: no keyword is taken over from the previous frame. *)
Theorem propagate_keyword_from_arc d am_score num cur' j tok :
  propagate d am_score num = Ok cur' →
  Forall (λ t, keyword t = 0) (cur_tokens_ d) →
  cur' !! j = Some tok →
  keyword tok = 0
  ∨ ∃ i prev arc,
      enters fst_ (prev_tokens_ d) i prev arc j ∧ keyword tok = olabel arc.
Proof.
  intros Hprop Hclear. revert j tok.
  eapply (propagate_invariant
            (λ c, ∀ j tok, c !! j = Some tok →
               keyword tok = 0
               ∨ ∃ i prev arc,
                   enters fst_ (prev_tokens_ d) i prev arc j
                   ∧ keyword tok = olabel arc)); [| | done].
  - intros i prev arc c c' Hi Hact Hin Hinv
      ([Hns _] & _ & x & self & self' & _ & _ & Hself & Hup & ->)%pass_arc_checked
      j tok Hj.
    destruct (decide (Z.to_nat (next_state arc) = j)) as [<- |].
    + rewrite list_lookup_insert_eq in Hj by by eapply lookup_lt_Some.
      injection Hj as <-.
      apply Update_keyword in Hup as [-> | ->]; [by apply Hinv |].
      right. exists i, prev, arc. split; [| done].
      repeat split; try done. lia.
    + rewrite list_lookup_insert_ne in Hj by done. by apply (Hinv j).
  - intros j tok Hj. left. by eapply Forall_lookup_1 in Hclear.
Qed.

(** X15. A call of [Spot] that returns has found, for every arc that leaves
    a state active in the previous frame, the destination inside the
    buffer, the input label at most [num] and its score inside the frame;
    with any other arc the call does not return. *)
Theorem Spot_checks_arcs d am_score num r i prev arc :
  Spot d am_score num = Ok r →
  prev_tokens_ d !! i = Some prev → active prev = true →
  arc ∈ Arcs fst_ i →
  0 ≤ next_state arc < Z.of_nat (length (cur_tokens_ d))
  ∧ ilabel arc ≤ num
  ∧ 0 ≤ wrap32 (ilabel arc - 1) < Z.of_nat (length am_score).
Proof.
  intros HS Hi Hact Hin. unfold Spot in HS.
  apply bind_Ok in HS as (cur' & Hprop & _).
  pose proof (pass_from_length _ _ _ _ _ _ _ _ _ Hprop) as Hlen.
  rewrite <- Hlen.
  eapply (propagate_each
            (λ c, 0 ≤ next_state arc < Z.of_nat (length c)
                  ∧ ilabel arc ≤ num
                  ∧ 0 ≤ wrap32 (ilabel arc - 1) < Z.of_nat (length am_score)));
    [| | done | done | done | done].
  - intros c c' Hpass.
    pose proof (pass_arc_length _ _ _ _ _ _ _ _ _ Hpass) as Hc.
    apply pass_arc_checked in Hpass
      as (Hns & Hil & x & _ & _ & [Hx0 Hx]%at_index_Ok & _).
    apply lookup_lt_Some in Hx. rewrite Hc. lia.
  - intros i' prev' arc' c c' HQ Hpass.
    by rewrite (pass_arc_length _ _ _ _ _ _ _ _ _ Hpass).
Qed.

End Propagation.

(** ** The counters of a token *)

Lemma keyword_update_counters self prev olabel is_self_arc am_score self' :
  Token.keyword_update self prev olabel is_self_arc am_score = Ok self' →
  num_keyword_frames self' = wrap32 (num_keyword_frames prev + 1)
  ∧ num_frames_of_current_state self' =
      (if is_self_arc then wrap32 (num_frames_of_current_state prev + 1)
       else 1)
  ∧ num_keyword_states self' =
      (if is_self_arc then num_keyword_states prev
       else wrap32 (num_keyword_states prev + 1))
  ∧ (is_self_arc = true → 0 < num_keyword_states prev).
Proof.
  unfold Token.keyword_update. destruct is_self_arc; simpl.
  - destruct (Z.ltb_spec 0 (num_keyword_states prev)); simpl; [| discriminate].
    intros [= <-]. simpl. auto.
  - intros [= <-]. simpl. repeat split; discriminate.
Qed.

(** Where the counters of an updated token come from: the token itself, or
    the keyword branch over [prev]. *)
Lemma Update_counters self prev olabel is_self_arc filler am_score self' :
  Token.Update self prev olabel is_self_arc filler am_score = Ok self' →
  (num_keyword_frames self' = num_keyword_frames self
   ∧ num_frames_of_current_state self' = num_frames_of_current_state self
   ∧ num_keyword_states self' = num_keyword_states self
   ∧ (filler = true ∨ active self = true))
  ∨ (filler = false
     ∧ num_keyword_frames self' = wrap32 (num_keyword_frames prev + 1)
     ∧ num_frames_of_current_state self' =
         (if is_self_arc then wrap32 (num_frames_of_current_state prev + 1)
          else 1)
     ∧ num_keyword_states self' =
         (if is_self_arc then num_keyword_states prev
          else wrap32 (num_keyword_states prev + 1))
     ∧ (is_self_arc = true → 0 < num_keyword_states prev)).
Proof.
  unfold Token.Update. intros Hup.
  apply bind_Ok in Hup as (tok & Htok & [= <-]). simpl.
  destruct (Token.wins self prev am_score) eqn:Hw.
  - destruct filler; simpl in Htok.
    + injection Htok as <-. left. simpl. auto.
    + right. split; [done |]. by eapply keyword_update_counters.
  - injection Htok as <-. apply wins_false in Hw as [Hact _]. left. auto.
Qed.

Lemma consistent_new k : consistent k Token.new.
Proof. left. done. Qed.

Lemma consistent_mono k k' tok : k ≤ k' → consistent k tok → consistent k' tok.
Proof. unfold consistent. intros Hk [H | H]; [by left | right; lia]. Qed.

Lemma Update_consistent k self prev olabel is_self_arc filler am_score self' :
  0 ≤ k → k + 1 ≤ INT_MAX →
  consistent k prev → consistent (k + 1) self →
  Token.Update self prev olabel is_self_arc filler am_score = Ok self' →
  consistent (k + 1) self'.
Proof.
  unfold consistent, INT_MAX. intros Hk Hmax Hprev Hself Hup.
  apply Update_counters in Hup
    as [(-> & -> & -> & _) | (_ & -> & -> & -> & Hcheck)]; [done |].
  destruct is_self_arc.
  - specialize (Hcheck eq_refl). destruct Hprev as [Hz | Hp]; [lia |].
    right. rewrite !wrap32_small by lia. lia.
  - destruct Hprev as [(-> & -> & _) | Hp].
    + right. rewrite !wrap32_small by lia. lia.
    + right. rewrite !wrap32_small by lia. lia.
Qed.

(** ** The constructor and [Reset] twice *)

(** X16. On a transducer with at least one state the constructor returns
    the decoder with state 0 active, the threshold 0.5, no minimum of
    keyword frames and a minimum of 5 frames in the last state; on a
    transducer with no state its write to [prev_tokens_[0]] leaves the
    vector. *)
Theorem construct_defaults (fst_ : Fst) :
  construct fst_ =
    match NumStates fst_ with
    | O => Undefined
    | S n => Ok (armed n F32.half 0 5)
    end.
Proof.
  unfold construct, Reset. simpl. rewrite !fmap_replicate.
  destruct (NumStates fst_); done.
Qed.

(** X12. [Reset] on a decoder that [Reset] has just left changes nothing. *)
Theorem Reset_idempotent d d' :
  Reset d = Ok d' → Reset d' = Ok d'.
Proof.
  intros (n & Hn & Hprev & Hcur & Hframes & Hthr & Hkw & Hlast)%Reset_Ok.
  destruct d' as [nf prev cur thr kw last]. simpl in *. subst.
  unfold Reset. simpl. rewrite !fmap_replicate, ?length_replicate. done.
Qed.

Section Invariants.

Context (fst_ : Fst) (filler_table_ : SymbolTable).
Context (logf expf : F32.t → F32.t).

Local Abbreviation pass_arc := (pass_arc filler_table_ logf).
Local Abbreviation pass_arcs := (pass_arcs filler_table_ logf).
Local Abbreviation pass_from := (pass_from fst_ filler_table_ logf).
Local Abbreviation propagate := (propagate fst_ filler_table_ logf).
Local Abbreviation find_best := (find_best fst_).
Local Abbreviation scan_from := (scan_from fst_).
Local Abbreviation scan_state := (scan_state fst_).
Local Abbreviation decision := (decision expf).
Local Abbreviation Spot := (Spot fst_ filler_table_ logf expf).
Local Abbreviation construct := (construct fst_).
Local Abbreviation feed := (feed fst_ filler_table_ logf expf).
Local Abbreviation since_reset := (since_reset fst_ filler_table_ logf expf).
Local Abbreviation reachable := (reachable fst_ filler_table_ logf expf).

(** *** The buffers between two calls *)

Lemma since_reset_clear k d :
  since_reset k d →
  cur_tokens_ d = replicate (NumStates fst_) Token.new.
Proof.
  induction 1 as [d Hnew | k d d' Hd _ HR | k d am_score num d' out Hd _ HS
                  | k d x _ IH | k d x _ IH | k d x _ IH]; try done.
  - apply Reset_Ok in Hnew as (n & _ & _ & -> & _). simpl.
    by rewrite length_replicate.
  - apply since_reset_shape in Hd as (_ & _ & Hcur).
    apply Reset_Ok in HR as (n & _ & _ & -> & _). by rewrite Hcur.
  - apply since_reset_shape in Hd as (_ & Hprev & Hcur).
    apply Spot_Ok in HS as (cur & s & best & _ & Hlen & _ & _ & _ & ->);
      [| congruence].
    simpl. by rewrite Hlen, Hcur.
Qed.

Lemma since_reset_marked k d :
  since_reset k d →
  Forall (λ tok, active tok = true ∨ tok = Token.new) (prev_tokens_ d).
Proof.
  induction 1 as [d Hnew | k d d' Hd _ HR | k d am_score num d' out Hd IH HS
                  | k d x _ IH | k d x _ IH | k d x _ IH]; try done.
  - apply Reset_Ok in Hnew as (n & _ & -> & _).
    apply Forall_cons. split; [by left |]. apply Forall_replicate. by right.
  - apply Reset_Ok in HR as (n & _ & -> & _).
    apply Forall_cons. split; [by left |]. apply Forall_replicate. by right.
  - pose proof (since_reset_clear _ _ Hd) as Hclear.
    apply since_reset_shape in Hd as (_ & Hprev & Hcur).
    apply Spot_Ok in HS as (cur & s & best & Hprop & _ & _ & _ & _ & ->);
      [| congruence].
    simpl. destruct (_ && _); [apply Forall_replicate; by right |].
    eapply (propagate_invariant fst_ filler_table_ logf
              (Forall (λ tok, active tok = true ∨ tok = Token.new)));
      [| | done].
    + intros i prev arc c c' _ _ _ Hc
        (_ & _ & x & self & self' & _ & _ & _ & Hup & ->)%pass_arc_checked.
      apply Forall_insert; [done |]. left.
      by apply Update_Ok_cases in Hup as [? _].
    + rewrite Hclear. apply Forall_replicate. by right.
Qed.

(** X3. Every decoder that the program can hold between two calls has a
    transducer with at least one state, a previous-frame buffer with one
    token per state, and a current-frame buffer with one reset token per
    state. *)
Theorem reachable_buffers d :
  reachable d →
  (0 < NumStates fst_)%nat
  ∧ length (prev_tokens_ d) = NumStates fst_
  ∧ cur_tokens_ d = replicate (NumStates fst_) Token.new.
Proof.
  intros [k Hd].
  destruct (since_reset_shape _ _ _ _ _ _ Hd) as (Hpos & Hprev & _).
  split; [done |]. split; [done |]. by eapply since_reset_clear.
Qed.

(** X4. In every decoder that the program can hold between two calls, a
    token of the previous-frame buffer that is not active is a reset
    token: it carries no score, keyword or counter of an earlier frame. *)
Theorem reachable_inactive_reset d tok :
  reachable d → tok ∈ prev_tokens_ d → active tok = false →
  tok = Token.new.
Proof.
  intros [k Hd] Hin Hact.
  apply since_reset_marked in Hd.
  eapply Forall_forall in Hd as [Hd | Hd]; [| done | done]. congruence.
Qed.

(** *** The frame counter and the counters of the tokens *)

(** X13. Up to [INT_MAX] frames, the frame counter is the number of calls
    of [Spot] that have returned since the decoder was constructed or
    reset; only [Reset] brings it back to 0. *)
Theorem num_frames_counts k d :
  since_reset k d → Z.of_nat k ≤ INT_MAX → num_frames_ d = Z.of_nat k.
Proof.
  unfold INT_MAX.
  induction 1 as [d Hnew | k d d' _ _ HR | k d am_score num d' out Hd IH HS
                  | k d x _ IH | k d x _ IH | k d x _ IH]; intros Hmax;
    try (by apply IH).
  - by apply Reset_Ok in Hnew as (n & _ & _ & _ & -> & _).
  - by apply Reset_Ok in HR as (n & _ & _ & _ & -> & _).
  - apply since_reset_shape in Hd as (_ & Hprev & Hcur).
    apply Spot_Ok in HS as (cur & s & best & _ & _ & _ & _ & _ & ->);
      [| congruence].
    simpl. rewrite IH by lia. rewrite wrap32_small; lia.
Qed.

(** X14. Up to [INT_MAX] frames, the counters of every token of the
    previous-frame buffer fit together: they are all zero, or the token has
    at least one keyword state and one frame in its state, the frames in
    its state and its keyword states add up to at most its keyword frames
    plus one, and its keyword frames are at most the frames since the
    decoder was constructed or reset. *)
Theorem since_reset_consistent k d tok :
  since_reset k d → Z.of_nat k ≤ INT_MAX → tok ∈ prev_tokens_ d →
  consistent (Z.of_nat k) tok.
Proof.
  intros Hd Hmax Hin. revert Hmax tok Hin.
  rewrite <- Forall_forall.
  induction Hd as [d Hnew | k d d' _ _ HR | k d am_score num d' out Hd IH HS
                   | k d x _ IH | k d x _ IH | k d x _ IH]; intros Hmax;
    try (by apply IH).
  - apply Reset_Ok in Hnew as (n & _ & -> & _).
    apply Forall_cons. split; [by left |].
    apply Forall_replicate, consistent_new.
  - apply Reset_Ok in HR as (n & _ & -> & _).
    apply Forall_cons. split; [by left |].
    apply Forall_replicate, consistent_new.
  - specialize (IH ltac:(lia)).
    pose proof (since_reset_clear _ _ Hd) as Hclear.
    apply since_reset_shape in Hd as (_ & Hprev & Hcur).
    apply Spot_Ok in HS as (cur & s & best & Hprop & _ & _ & _ & _ & ->);
      [| congruence].
    simpl. destruct (_ && _); [apply Forall_replicate, consistent_new |].
    replace (Z.of_nat (S k)) with (Z.of_nat k + 1) by lia.
    eapply (propagate_invariant fst_ filler_table_ logf
              (Forall (consistent (Z.of_nat k + 1)))); [| | done].
    + intros i prev arc c c' Hi _ _ Hc
        (_ & _ & x & self & self' & _ & _ & Hself & Hup & ->)%pass_arc_checked.
      apply Forall_insert; [done |].
      eapply Update_consistent; [| | | | done]; try lia.
      * by eapply Forall_lookup_1.
      * by eapply Forall_lookup_1.
    + rewrite Hclear. apply Forall_replicate, consistent_new.
Qed.

End Invariants.

(** ** Calls that return *)

Lemma at_index_in_range {A} (v : list A) (i : Z) :
  0 ≤ i < Z.of_nat (length v) →
  ∃ a, at_index v i = Ok a ∧ v !! Z.to_nat i = Some a.
Proof.
  intros Hi. destruct (lookup_lt_is_Some_2 v (Z.to_nat i)) as [a Ha]; [lia |].
  exists a. split; [| done]. unfold at_index.
  destruct (Z.ltb_spec i 0); [lia |]. by rewrite Ha.
Qed.

(** [Update] returns when every keyword self-arc finds a keyword state in
    [prev]. *)
Lemma Update_total self prev olabel is_self_arc filler am_score :
  (is_self_arc = true → filler = false → 0 < num_keyword_states prev) →
  ∃ self', Token.Update self prev olabel is_self_arc filler am_score = Ok self'.
Proof.
  intros Hpre. unfold Token.Update.
  destruct (Token.wins self prev am_score); simpl; [| by eexists].
  destruct filler; simpl; [by eexists |].
  destruct (keyword_update_total
              (Token.set_score self (score prev + am_score)%f32)
              prev olabel is_self_arc am_score) as [tok ->]; [by auto |].
  by eexists.
Qed.

Section Progress.

Context (fst_ : Fst) (filler_table_ : SymbolTable).
Context (logf expf : F32.t → F32.t).

Local Abbreviation pass_arc := (pass_arc filler_table_ logf).
Local Abbreviation pass_arcs := (pass_arcs filler_table_ logf).
Local Abbreviation pass_from := (pass_from fst_ filler_table_ logf).
Local Abbreviation propagate := (propagate fst_ filler_table_ logf).
Local Abbreviation find_best := (find_best fst_).
Local Abbreviation scan_from := (scan_from fst_).
Local Abbreviation scan_state := (scan_state fst_).
Local Abbreviation decision := (decision expf).
Local Abbreviation Spot := (Spot fst_ filler_table_ logf expf).
Local Abbreviation construct := (construct fst_).
Local Abbreviation feed := (feed fst_ filler_table_ logf expf).
Local Abbreviation since_reset := (since_reset fst_ filler_table_ logf expf).
Local Abbreviation reachable := (reachable fst_ filler_table_ logf expf).

(** *** Tokens on states that loop on a keyword phone *)

(** When only keyword phones enter the states that loop on a keyword
    phone, an active token on such a state has a keyword state. *)
Lemma since_reset_entered k d :
  since_reset k d → Z.of_nat k ≤ INT_MAX →
  keyword_loops_entered fst_ filler_table_ →
  ∀ i tok arc,
    prev_tokens_ d !! i = Some tok → active tok = true →
    arc ∈ Arcs fst_ i → next_state arc = Z.of_nat i →
    HaveId filler_table_ (ilabel arc) = false →
    1 ≤ num_keyword_states tok.
Proof.
  intros Hd Hmax Hwf. revert Hmax.
  induction Hd as [d Hnew | k d d' Hd0 _ HR | k d am_score num d' out Hd IH HS
                   | k d x _ IH | k d x _ IH | k d x _ IH]; intros Hmax;
    try (by apply IH).
  - pose proof Hnew as (n & Hn & Hprev & _)%Reset_Ok. simpl in Hn.
    rewrite length_replicate in Hn. rewrite Hprev.
    intros [| i] tok arc Hi Hact Hin Hns Hkw.
    + destruct (Hwf 0%nat arc) as [Hpos _]; [lia | done | done | done | lia].
    + simpl in Hi. apply lookup_replicate_1 in Hi as [-> _]. done.
  - pose proof (since_reset_shape _ _ _ _ _ _
                  (sr_Reset _ _ _ _ _ _ _ Hd0 HR)) as (_ & Hlen & _).
    pose proof HR as (n & Hn & Hprev & _)%Reset_Ok. rewrite Hprev.
    intros [| i] tok arc Hi Hact Hin Hns Hkw.
    + rewrite Hprev in Hlen. simpl in Hlen.
      destruct (Hwf 0%nat arc) as [Hpos _]; [lia | done | done | done | lia].
    + simpl in Hi. apply lookup_replicate_1 in Hi as [-> _]. done.
  - specialize (IH ltac:(lia)).
    pose proof (since_reset_clear _ _ _ _ _ _ Hd) as Hclear.
    pose proof (since_reset_counted _ _ _ _ _ _ Hd ltac:(lia)) as [Hcount _].
    pose proof (since_reset_shape _ _ _ _ _ _ Hd) as (_ & Hprev & Hcur).
    apply Spot_Ok in HS as (cur & s & best & Hprop & _ & _ & _ & _ & ->);
      [| congruence].
    simpl. destruct (_ && _).
    { intros i tok arc Hi Hact. apply lookup_replicate_1 in Hi as [-> _]. done. }
    eapply (propagate_invariant fst_ filler_table_ logf
              (λ c, length c = NumStates fst_
                    ∧ ∀ i tok arc,
                        c !! i = Some tok → active tok = true →
                        arc ∈ Arcs fst_ i → next_state arc = Z.of_nat i →
                        HaveId filler_table_ (ilabel arc) = false →
                        1 ≤ num_keyword_states tok)); [| | done].
    + intros i prev arc0 c c' Hi Hact0 Hin0 [Hlen Hc] Hpass.
      pose proof (pass_arc_length _ _ _ _ _ _ _ _ _ Hpass) as Hlen'.
      apply pass_arc_checked in Hpass
        as ([Hns0 _] & _ & x & self & self' & _ & _ & Hself & Hup & ->).
      split; [congruence |].
      intros j tok arc Hj Hact Hin Hns Hkw.
      destruct (decide (Z.to_nat (next_state arc0) = j)) as [Hdest |];
        [| rewrite list_lookup_insert_ne in Hj by done; by eapply Hc].
      rewrite Hdest in *.
      rewrite list_lookup_insert_eq in Hj by by eapply lookup_lt_Some.
      injection Hj as <-.
      apply lookup_lt_Some in Hself as Hj. apply lookup_lt_Some in Hi as Hi'.
      destruct (Hwf j arc) as [_ Hall]; [lia | done | done | done |].
      assert (IsFillerPhone filler_table_ (ilabel arc0) = false) as Hkw0.
      { apply (Hall i); [lia | done | lia]. }
      rewrite Hkw0 in Hup.
      apply Update_counters in Hup
        as [(_ & _ & -> & [? | Hsa]) | (_ & _ & _ & -> & Hcheck)];
        [done | by eapply Hc |].
      destruct (Z.of_nat i =? next_state arc0);
        [specialize (Hcheck eq_refl); lia |].
      eapply Forall_lookup_1 in Hcount; [| done]. unfold counted in Hcount.
      unfold INT_MAX in Hmax. rewrite wrap32_small; lia.
    + rewrite Hclear. split; [by rewrite length_replicate |].
      intros i tok arc Hi Hact. apply lookup_replicate_1 in Hi as [-> _]. done.
Qed.

(** *** Propagation on a transducer and a frame that fit *)

Lemma pass_arc_total am_score num i prev cur arc :
  (0 ≤ next_state arc < Z.of_nat (length cur)) →
  1 ≤ ilabel arc ≤ num → num ≤ Z.of_nat (length am_score) → num ≤ INT_MAX →
  (next_state arc = Z.of_nat i →
   HaveId filler_table_ (ilabel arc) = false → 0 < num_keyword_states prev) →
  ∃ cur', pass_arc am_score num i prev cur arc = Ok cur'.
Proof.
  unfold INT_MAX. intros Hns Hil Ham Hnum Hpre. unfold pass_arc, CHECK.
  destruct (Z.leb_spec 0 (next_state arc)); [| lia].
  destruct (Z.ltb_spec (next_state arc) (Z.of_nat (length cur))); [| lia].
  destruct (Z.leb_spec (ilabel arc) num); [| lia]. simpl.
  rewrite wrap32_small by lia.
  destruct (at_index_in_range am_score (ilabel arc - 1)) as (x & -> & _);
    [lia |].
  destruct (at_index_in_range cur (next_state arc)) as (self & -> & _);
    [lia |].
  simpl.
  destruct (Update_total self prev (olabel arc) (Z.of_nat i =? next_state arc)
              (IsFillerPhone filler_table_ (ilabel arc)) (logf x))
    as [self' ->].
  { intros Hsa%Z.eqb_eq Hkw. apply Hpre; [lia | done]. }
  simpl. by eexists.
Qed.

Lemma pass_arcs_total am_score num i prev arcs cur :
  (∀ arc c, arc ∈ arcs → length c = length cur →
            ∃ c', pass_arc am_score num i prev c arc = Ok c') →
  ∃ cur', pass_arcs am_score num i prev arcs cur = Ok cur'.
Proof.
  revert cur. induction arcs as [| arc rest IH]; intros cur Hstep; simpl.
  - by eexists.
  - destruct (Hstep arc cur) as [cur1 Hcur1]; [by left | done |].
    rewrite Hcur1. simpl. apply IH. intros arc' c Hin Hc. apply Hstep.
    + by right.
    + by rewrite Hc, (pass_arc_length _ _ _ _ _ _ _ _ _ Hcur1).
Qed.

Lemma pass_from_total am_score num i prevs cur :
  (∀ k prev arc c, prevs !! k = Some prev → active prev = true →
                   arc ∈ Arcs fst_ (i + k) → length c = length cur →
                   ∃ c', pass_arc am_score num (i + k) prev c arc = Ok c') →
  ∃ cur', pass_from am_score num i prevs cur = Ok cur'.
Proof.
  revert i cur. induction prevs as [| prev rest IH]; intros i cur Hstep; simpl.
  - by eexists.
  - assert (∃ cur1, (if active prev
                     then pass_arcs am_score num i prev (Arcs fst_ i) cur
                     else Ok cur) = Ok cur1 ∧ length cur1 = length cur)
      as (cur1 & -> & Hlen).
    { destruct (active prev) eqn:Hact; [| by eexists].
      destruct (pass_arcs_total am_score num i prev (Arcs fst_ i) cur)
        as [cur1 Hcur1].
      - intros arc c Hin Hc. specialize (Hstep 0%nat prev arc c).
        rewrite Nat.add_0_r in Hstep. by apply Hstep.
      - exists cur1. split; [done |].
        by eapply pass_arcs_length. }
    simpl. apply IH. intros k prev' arc c Hk Hact Hin Hc.
    replace (S i + k)%nat with (i + S k)%nat in * by lia.
    apply Hstep; [done | done | done | congruence].
Qed.

(** X11. On a transducer whose arcs stay inside it and carry phones between
    1 and [num], and whose states that loop on a keyword phone are entered
    by keyword phones only and are not the start state, a call of [Spot]
    with a frame of at least [num] scores returns: no [CHECK] fires and no
    access leaves a vector, for fewer than [INT_MAX] frames since the
    decoder was constructed or reset. *)
Theorem Spot_returns k d am_score num :
  since_reset k d → Z.of_nat k < INT_MAX →
  arcs_in_range fst_ num →
  keyword_loops_entered fst_ filler_table_ →
  num ≤ Z.of_nat (length am_score) → num ≤ INT_MAX →
  ∃ d' out, Spot d am_score num = Ok (d', out).
Proof.
  intros Hd Hk Hrange Hloops Ham Hnum.
  pose proof (since_reset_shape _ _ _ _ _ _ Hd) as (Hpos & Hprev & Hcur).
  pose proof (since_reset_entered _ _ Hd ltac:(lia) Hloops) as Hentered.
  destruct (pass_from_total am_score num 0 (prev_tokens_ d) (cur_tokens_ d))
    as [cur Hprop].
  { intros i prev arc c Hi Hact Hin Hc. simpl in *.
    apply lookup_lt_Some in Hi as Hi'.
    destruct (Hrange i arc) as [Hns Hil]; [lia | done |].
    apply pass_arc_total; try done; try lia.
    intros Hself Hkw. specialize (Hentered i prev arc Hi Hact Hin Hself Hkw). lia. }
  pose proof (pass_from_length _ _ _ _ _ _ _ _ _ Hprop) as Hlen.
  unfold Spot, propagate. rewrite Hprop. simpl.
  assert (∃ s, find_best cur = Ok s) as [s Hs].
  { unfold find_best.
    destruct (at_index_in_range cur 0) as (first & -> & _); [lia |].
    simpl. by eexists. }
  rewrite Hs. simpl.
  destruct (find_best_scanned _ _ _ Hs) as [(Hin & _) [_ Hfinal]].
  assert (∃ out, decision d cur s = Ok out) as [out Hout].
  { unfold decision. destruct (reach_final s) eqn:Hrf; [| by eexists].
    destruct (Hfinal eq_refl) as (_ & tok & (Htok & _) & _).
    rewrite (at_index_lookup _ _ _ Htok). simpl. by eexists. }
  rewrite Hout. simpl.
  apply lookup_lt_is_Some_2 in Hin as [best Hbest].
  rewrite (guard_spec _ _ _ _ best); [| rewrite length_fmap; congruence | done].
  simpl. by eexists _, _.
Qed.

End Progress.

(** ** A decoder with no active state *)

Section Outputs.

Context (fst_ : Fst) (filler_table_ : SymbolTable).
Context (logf expf : F32.t → F32.t).

Local Abbreviation pass_from := (pass_from fst_ filler_table_ logf).
Local Abbreviation propagate := (propagate fst_ filler_table_ logf).
Local Abbreviation find_best := (find_best fst_).
Local Abbreviation scan_from := (scan_from fst_).
Local Abbreviation scan_state := (scan_state fst_).
Local Abbreviation decision := (decision expf).
Local Abbreviation Spot := (Spot fst_ filler_table_ logf expf).
Local Abbreviation feed := (feed fst_ filler_table_ logf expf).

Lemma pass_from_inactive am_score num i prevs cur :
  Forall (λ tok, active tok = false) prevs →
  pass_from am_score num i prevs cur = Ok cur.
Proof.
  revert i. induction prevs as [| prev rest IH]; intros i Hprevs; simpl.
  - done.
  - apply Forall_cons in Hprevs as [-> Hrest]. simpl. by apply IH.
Qed.

Lemma scan_from_inactive i tokens s :
  Forall (λ tok, active tok = false) tokens →
  scan_from i tokens s = s.
Proof.
  revert i s. induction tokens as [| tok rest IH]; intros i s Htokens; simpl.
  - done.
  - apply Forall_cons in Htokens as [Htok Hrest]. rewrite IH by done.
    unfold scan_state. by rewrite Htok.
Qed.

(** One call on a decoder with no active state. *)
Lemma Spot_inactive d am_score num n :
  Forall (λ tok, active tok = false) (prev_tokens_ d) →
  length (prev_tokens_ d) = S n →
  cur_tokens_ d = replicate (S n) Token.new →
  Spot d am_score num =
    Ok ({| num_frames_ := wrap32 (num_frames_ d + 1);
           prev_tokens_ := replicate (S n) Token.new;
           cur_tokens_ := replicate (S n) Token.new;
           spot_threshold_ := spot_threshold_ d;
           min_keyword_frames_ := min_keyword_frames_ d;
           min_frames_for_last_state_ := min_frames_for_last_state_ d |},
        no_spot).
Proof.
  intros Hprev Hlen Hcur. unfold Spot, propagate.
  rewrite pass_from_inactive by done. rewrite Hcur. simpl.
  unfold find_best. simpl.
  rewrite scan_from_inactive by (apply Forall_replicate; done). simpl.
  rewrite fmap_Reset, Hlen.
  unfold guard. simpl.
  destruct (kMaxTokenPassingFrames <? wrap32 (num_frames_ d + 1)); [| done].
  rewrite length_replicate.
  pose proof (reset_first_all (replicate (S n) Token.new)) as Hreset.
  rewrite length_replicate in Hreset. simpl in Hreset.
  destruct (reset_first n (replicate n Token.new)) as [rest | |];
    simpl in *; [| discriminate | discriminate].
  injection Hreset as ->. done.
Qed.

Lemma feed_inactive d frames n :
  Forall (λ tok, active tok = false) (prev_tokens_ d) →
  length (prev_tokens_ d) = S n →
  cur_tokens_ d = replicate (S n) Token.new →
  feed d frames = replicate (length frames) (Ok no_spot).
Proof.
  revert d. induction frames as [| [am_score num] rest IH];
    intros d Hprev Hlen Hcur; simpl; [done |].
  rewrite (Spot_inactive d am_score num n) by done.
  f_equal. apply IH; cbn [prev_tokens_ cur_tokens_].
  - by apply Forall_replicate.
  - by rewrite length_replicate.
  - done.
Qed.

(** X6. A decoder none of whose states is active spots nothing from then
    on: whatever frames follow, also frames that fit no transducer, every
    call returns with no spotting, the confidence 0 and the keyword 0.
    Only [Reset] brings it back. *)
Theorem inactive_decoder_stays_silent d frames n :
  Forall (λ tok, active tok = false) (prev_tokens_ d) →
  length (prev_tokens_ d) = S n →
  cur_tokens_ d = replicate (S n) Token.new →
  feed d frames = replicate (length frames) (Ok no_spot).
Proof. apply feed_inactive. Qed.

(** X7. Once the guard on the frame counter has cleared the buffer, the
    counter being above 60000 and the token of the best state being
    classified as filler, the decoder spots nothing in any later frame:
    the clearing leaves no state active and the counter where it is. *)
Theorem guard_silences d am_score num d' out cur s best frames :
  length (prev_tokens_ d) = length (cur_tokens_ d) →
  Spot d am_score num = Ok (d', out) →
  propagate d am_score num = Ok cur →
  find_best cur = Ok s →
  cur !! best_state s = Some best →
  is_filler best = true →
  60000 < num_frames_ d' →
  feed d' frames = replicate (length frames) (Ok no_spot).
Proof.
  intros Hlen HS Hprop Hs Hbest Hfiller Hceil.
  apply Spot_Ok in HS
    as (cur0 & s0 & best0 & Hprop0 & Hlcur & Hs0 & _ & Hbest0 & ->); [| done].
  rewrite Hprop in Hprop0. injection Hprop0 as <-.
  rewrite Hs in Hs0. injection Hs0 as <-.
  rewrite Hbest in Hbest0. injection Hbest0 as <-.
  simpl in Hceil. apply Z.ltb_lt in Hceil.
  apply lookup_lt_Some in Hbest as Hpos.
  destruct (length cur) as [| n] eqn:Hn; [lia |].
  change kMaxTokenPassingFrames with 60000 in *.
  rewrite Hceil, Hfiller. cbn [andb].
  apply (feed_inactive _ _ n); cbn [prev_tokens_ cur_tokens_].
  - by apply Forall_replicate.
  - by rewrite length_replicate.
  - done.
Qed.

(** *** The configuration and the outputs *)

(** X5. The configuration decides the returned flag and nothing else: two
    decoders with the same buffers and frame counter, whatever their
    thresholds, get the same buffers, counter, confidence and keyword from
    the same frame. *)
Theorem Spot_configuration d1 d2 am_score num d1' out1 :
  prev_tokens_ d1 = prev_tokens_ d2 →
  cur_tokens_ d1 = cur_tokens_ d2 →
  num_frames_ d1 = num_frames_ d2 →
  Spot d1 am_score num = Ok (d1', out1) →
  ∃ d2' out2,
    Spot d2 am_score num = Ok (d2', out2)
    ∧ prev_tokens_ d2' = prev_tokens_ d1'
    ∧ cur_tokens_ d2' = cur_tokens_ d1'
    ∧ num_frames_ d2' = num_frames_ d1'
    ∧ confidence out2 = confidence out1
    ∧ spotted_keyword out2 = spotted_keyword out1.
Proof.
  intros Hprev Hcur Hframes HS. unfold Spot, propagate in *.
  rewrite <- Hprev, <- Hcur, <- Hframes.
  apply bind_Ok in HS as (cur & Hcur1 & HS).
  apply bind_Ok in HS as (s & Hs & HS).
  apply bind_Ok in HS as (out & Hout & HS).
  apply bind_Ok in HS as (prev2 & Hguard & [= <- <-]).
  rewrite Hcur1. simpl. rewrite Hs. simpl.
  unfold decision in *. destruct (reach_final s).
  - apply bind_Ok in Hout as (tok & Htok & [= <-]).
    rewrite Htok. simpl. rewrite Hguard. simpl. by eexists _, _.
  - injection Hout as <-. simpl. rewrite Hguard. simpl. by eexists _, _.
Qed.

(** X2. The best state that the selection of [Spot] returns is state 0 or
    an active state, its score is the best score, and no active state
    other than state 0 has a score that beats it. *)
Theorem find_best_global cur s :
  find_best cur = Ok s →
  ∃ tok,
    cur !! best_state s = Some tok
    ∧ best_score s = score tok
    ∧ (best_state s = 0%nat ∨ active tok = true)
    ∧ ∀ j tok', (1 ≤ j)%nat → cur !! j = Some tok' → active tok' = true →
                (score tok <? score tok')%f32 = false.
Proof.
  intros [(_ & (tok & Htok & Hscore & Hwhich) & Hall) _]%find_best_scanned.
  exists tok. split; [done |]. split; [done |]. split; [done |].
  intros j tok' Hj Hj' Hact. rewrite <- Hscore.
  apply (Hall j); [| done | done].
  apply lookup_lt_Some in Hj'. lia.
Qed.

End Outputs.

(** ** The further properties on concrete transducers *)

Lemma keyword_fst_arcs_in_range :
  arcs_in_range Scenario.keyword_fst 3.
Proof.
  intros [| [| [| i]]] arc Hi Hin; simpl in *; try lia;
    repeat (apply elem_of_cons in Hin as [-> | Hin]; [simpl; lia |]);
    by apply elem_of_nil in Hin.
Qed.

Lemma keyword_fst_loops_entered :
  keyword_loops_entered Scenario.keyword_fst Scenario.filler_table.
Proof.
  intros [| [| [| i]]] arc Hi Hin Hself Hkw; simpl in *; try lia;
    repeat (apply elem_of_cons in Hin as [-> | Hin];
            [simpl in *; try discriminate; try lia |]);
    try (by apply elem_of_nil in Hin).
  all: split; [lia |].
  all: intros [| [| [| i']]] arc' Hi' Hin' Hns; simpl in *; try lia;
    repeat (apply elem_of_cons in Hin' as [-> | Hin'];
            [simpl in *; try discriminate; try lia; try done |]);
    try (by apply elem_of_nil in Hin').
Qed.

Lemma Spot_at_ceiling :
  Spot Scenario.silence_fst Scenario.filler_table Scenario.logf Scenario.expf
    Scenario.at_ceiling Scenario.silence.1 Scenario.silence.2
  = Ok (Scenario.silenced, no_spot).
Proof. vm_compute. reflexivity. Qed.

Lemma propagate_phone2 :
  propagate Scenario.keyword_fst Scenario.filler_table Scenario.logf
    Scenario.keyword_decoder Scenario.phone2.1 Scenario.phone2.2
  = Ok (prev_tokens_ Scenario.after_phone2).
Proof. vm_compute. reflexivity. Qed.

(** An instance: the frame [phone2] on the new decoder of [keyword_fst],
    where no state other than state 0 is an active final state. *)
Lemma Spot_output_witness :
  ∃ cur,
    propagate Scenario.keyword_fst Scenario.filler_table Scenario.logf
      Scenario.keyword_decoder Scenario.phone2.1 Scenario.phone2.2 = Ok cur
    ∧ ((∀ j tok, (1 ≤ j)%nat → cur !! j = Some tok →
                 active tok && IsFinal Scenario.keyword_fst j = false) →
       Scenario.nothing =
         {| legal := false; confidence := F32.zero; spotted_keyword := 0 |})
    ∧ (∀ j tok, (1 ≤ j)%nat →
                final_candidate Scenario.keyword_fst cur j tok →
       ∃ b best,
         (1 ≤ b)%nat ∧ final_candidate Scenario.keyword_fst cur b best
         ∧ (∀ j' tok', (1 ≤ j')%nat →
                       final_candidate Scenario.keyword_fst cur j' tok' →
                       (score best <? score tok')%f32 = false)
         ∧ confidence Scenario.nothing =
             Scenario.expf (average_max_keyword_score best)
         ∧ spotted_keyword Scenario.nothing = keyword best
         ∧ (legal Scenario.nothing = true ↔
            min_keyword_frames_ Scenario.keyword_decoder
              ≤ num_keyword_frames best
            ∧ min_frames_for_last_state_ Scenario.keyword_decoder
              ≤ num_frames_of_current_state best
            ∧ (spot_threshold_ Scenario.keyword_decoder
               <? confidence Scenario.nothing)%f32 = true)).
Proof.
  exact (Spot_output Scenario.keyword_fst Scenario.filler_table Scenario.logf
           Scenario.expf Scenario.keyword_decoder Scenario.phone2.1
           Scenario.phone2.2 Scenario.after_phone2 Scenario.nothing
           Spot_phone2).
Defined.

(** An instance: the selection over the buffer that [phone2] leaves. *)
Lemma find_best_global_witness :
  ∃ s,
    find_best Scenario.keyword_fst (prev_tokens_ Scenario.after_phone2) = Ok s
    ∧ ∃ tok,
        prev_tokens_ Scenario.after_phone2 !! best_state s = Some tok
        ∧ best_score s = score tok
        ∧ (best_state s = 0%nat ∨ active tok = true)
        ∧ ∀ j tok', (1 ≤ j)%nat →
                    prev_tokens_ Scenario.after_phone2 !! j = Some tok' →
                    active tok' = true →
                    (score tok <? score tok')%f32 = false.
Proof.
  eexists. split; [reflexivity |].
  apply (find_best_global Scenario.keyword_fst). reflexivity.
Defined.

(** An instance: the decoder that has seen one frame. *)
Lemma reachable_buffers_witness :
  (0 < NumStates Scenario.keyword_fst)%nat
  ∧ length (prev_tokens_ Scenario.after_phone2)
    = NumStates Scenario.keyword_fst
  ∧ cur_tokens_ Scenario.after_phone2
    = replicate (NumStates Scenario.keyword_fst) Token.new.
Proof.
  apply (reachable_buffers Scenario.keyword_fst Scenario.filler_table
           Scenario.logf Scenario.expf).
  exists 1%nat. exact after_phone2_since_reset.
Defined.

(** An instance: state 2, which the first frame does not reach. *)
Lemma reachable_inactive_reset_witness :
  ∃ tok,
    prev_tokens_ Scenario.after_phone2 !! 2%nat = Some tok
    ∧ active tok = false ∧ tok = Token.new.
Proof.
  eexists. split; [reflexivity |]. split; [reflexivity |].
  apply (reachable_inactive_reset Scenario.keyword_fst Scenario.filler_table
           Scenario.logf Scenario.expf Scenario.after_phone2).
  - exists 1%nat. exact after_phone2_since_reset.
  - apply list_elem_of_lookup_2 with 2%nat. reflexivity.
  - reflexivity.
Defined.

(** An instance: the threshold raised to 1 before the first frame. *)
Lemma Spot_configuration_witness :
  ∃ d2' out2,
    Spot Scenario.keyword_fst Scenario.filler_table Scenario.logf
      Scenario.expf (SetSpotThreshold Scenario.keyword_decoder F32.one)
      Scenario.phone2.1 Scenario.phone2.2 = Ok (d2', out2)
    ∧ prev_tokens_ d2' = prev_tokens_ Scenario.after_phone2
    ∧ cur_tokens_ d2' = cur_tokens_ Scenario.after_phone2
    ∧ num_frames_ d2' = num_frames_ Scenario.after_phone2
    ∧ confidence out2 = confidence Scenario.nothing
    ∧ spotted_keyword out2 = spotted_keyword Scenario.nothing.
Proof.
  apply (Spot_configuration Scenario.keyword_fst Scenario.filler_table
           Scenario.logf Scenario.expf Scenario.keyword_decoder).
  - reflexivity.
  - reflexivity.
  - reflexivity.
  - exact Spot_phone2.
Defined.

(** An instance: the cleared decoder hears the keyword and spots nothing. *)
Lemma inactive_decoder_stays_silent_witness :
  feed Scenario.keyword_fst Scenario.filler_table Scenario.logf Scenario.expf
    Scenario.cleared [Scenario.silence; Scenario.phone2; Scenario.phone3]
  = replicate 3 (Ok no_spot).
Proof.
  apply (inactive_decoder_stays_silent Scenario.keyword_fst
           Scenario.filler_table Scenario.logf Scenario.expf
           Scenario.cleared
           [Scenario.silence; Scenario.phone2; Scenario.phone3] 2).
  - repeat constructor.
  - reflexivity.
  - reflexivity.
Defined.

(** An instance: frame 60001 of silence, and three more frames. *)
Lemma guard_silences_witness :
  feed Scenario.silence_fst Scenario.filler_table Scenario.logf Scenario.expf
    Scenario.silenced [Scenario.silence; Scenario.silence; Scenario.silence]
  = replicate 3 (Ok no_spot).
Proof.
  eapply (guard_silences Scenario.silence_fst Scenario.filler_table
            Scenario.logf Scenario.expf Scenario.at_ceiling
            Scenario.silence.1 Scenario.silence.2 Scenario.silenced no_spot
            _ _ _ [Scenario.silence; Scenario.silence; Scenario.silence]).
  - reflexivity.
  - exact Spot_at_ceiling.
  - vm_compute. reflexivity.
  - vm_compute. reflexivity.
  - reflexivity.
  - reflexivity.
  - reflexivity.
Defined.

(** An instance: the arc from state 0 to state 1 in the first frame. *)
Lemma propagate_score_maximal_witness :
  ∃ x tok,
    arc_score Scenario.logf Scenario.phone2.1 (mkArc 2 0 1) = Some x
    ∧ prev_tokens_ Scenario.after_phone2 !! Z.to_nat (next_state (mkArc 2 0 1))
      = Some tok
    ∧ active tok = true
    ∧ (score tok <? score (activate Token.new) + x)%f32 = false.
Proof.
  apply (propagate_score_maximal Scenario.keyword_fst Scenario.filler_table
           Scenario.logf Scenario.keyword_decoder Scenario.phone2.1
           Scenario.phone2.2 _ 0%nat).
  - exact propagate_phone2.
  - reflexivity.
  - reflexivity.
  - apply list_elem_of_lookup_2 with 1%nat. reflexivity.
Defined.

(** An instance: the token of state 1 after the first frame. *)
Lemma propagate_score_attained_witness :
  ∃ i prev arc x,
    enters Scenario.keyword_fst (prev_tokens_ Scenario.keyword_decoder)
      i prev arc 1
    ∧ arc_score Scenario.logf Scenario.phone2.1 arc = Some x
    ∧ score Scenario.entered = (score prev + x)%f32.
Proof.
  apply (propagate_score_attained Scenario.keyword_fst Scenario.filler_table
           Scenario.logf Scenario.keyword_decoder Scenario.phone2.1
           Scenario.phone2.2 (prev_tokens_ Scenario.after_phone2)).
  - exact propagate_phone2.
  - repeat constructor.
  - reflexivity.
  - reflexivity.
Defined.

(** An instance: the token of state 1 after the first frame, whose keyword
    is 0. *)
Lemma propagate_keyword_from_arc_witness :
  keyword Scenario.entered = 0
  ∨ ∃ i prev arc,
      enters Scenario.keyword_fst (prev_tokens_ Scenario.keyword_decoder)
        i prev arc 1
      ∧ keyword Scenario.entered = olabel arc.
Proof.
  apply (propagate_keyword_from_arc Scenario.keyword_fst Scenario.filler_table
           Scenario.logf Scenario.keyword_decoder Scenario.phone2.1
           Scenario.phone2.2 (prev_tokens_ Scenario.after_phone2)).
  - exact propagate_phone2.
  - repeat constructor.
  - reflexivity.
Defined.

(** An instance: the second frame on [keyword_fst]. *)
Lemma Spot_returns_witness :
  ∃ d' out,
    Spot Scenario.keyword_fst Scenario.filler_table Scenario.logf
      Scenario.expf Scenario.after_phone2 Scenario.phone3.1 Scenario.phone3.2
    = Ok (d', out).
Proof.
  apply (Spot_returns Scenario.keyword_fst Scenario.filler_table Scenario.logf
           Scenario.expf 1 Scenario.after_phone2).
  - exact after_phone2_since_reset.
  - reflexivity.
  - exact keyword_fst_arcs_in_range.
  - exact keyword_fst_loops_entered.
  - simpl. lia.
  - unfold INT_MAX. simpl. lia.
Defined.

(** An instance: [Reset] after the first frame, and once more. *)
Lemma Reset_idempotent_witness :
  Reset Scenario.keyword_decoder = Ok Scenario.keyword_decoder.
Proof.
  apply (Reset_idempotent Scenario.after_phone2). reflexivity.
Defined.

(** An instance: one frame since the decoder was constructed. *)
Lemma num_frames_counts_witness :
  num_frames_ Scenario.after_phone2 = Z.of_nat 1.
Proof.
  apply (num_frames_counts Scenario.keyword_fst Scenario.filler_table
           Scenario.logf Scenario.expf).
  - exact after_phone2_since_reset.
  - unfold INT_MAX. simpl. lia.
Defined.

(** An instance: the token of state 1 after the first frame. *)
Lemma since_reset_consistent_witness :
  consistent (Z.of_nat 1) Scenario.entered.
Proof.
  apply (since_reset_consistent Scenario.keyword_fst Scenario.filler_table
           Scenario.logf Scenario.expf 1 Scenario.after_phone2).
  - exact after_phone2_since_reset.
  - unfold INT_MAX. simpl. lia.
  - apply list_elem_of_lookup_2 with 1%nat. reflexivity.
Defined.

(** An instance: the arc from state 0 to state 1 in the first frame. *)
Lemma Spot_checks_arcs_witness :
  0 ≤ next_state (mkArc 2 0 1)
    < Z.of_nat (length (cur_tokens_ Scenario.keyword_decoder))
  ∧ ilabel (mkArc 2 0 1) ≤ Scenario.phone2.2
  ∧ 0 ≤ wrap32 (ilabel (mkArc 2 0 1) - 1)
      < Z.of_nat (length Scenario.phone2.1).
Proof.
  apply (Spot_checks_arcs Scenario.keyword_fst Scenario.filler_table
           Scenario.logf Scenario.expf Scenario.keyword_decoder
           Scenario.phone2.1 Scenario.phone2.2
           (Scenario.after_phone2, Scenario.nothing) 0%nat
           (activate Token.new)).
  - exact Spot_phone2.
  - reflexivity.
  - reflexivity.
  - apply list_elem_of_lookup_2 with 1%nat. reflexivity.
Defined.

(** ** The order of the updates *)

(** The strict order of binary32 is asymmetric. *)
Lemma F32_ltb_asym (a b : F32.t) : (a <? b)%f32 = true → (b <? a)%f32 = false.
Proof.
  intros Hab. destruct (b <? a)%f32 eqn:Hba; [| done].
  pose proof (F32_ltb_trans _ _ _ Hab Hba) as Haa.
  by rewrite F32_ltb_irrefl in Haa.
Qed.

(** X18. An update of an active token never lowers its score: the score
    after the update is not beaten by the score before. *)
Theorem Update_never_lowers self prev olabel is_self_arc filler am_score self' :
  Token.Update self prev olabel is_self_arc filler am_score = Ok self' →
  active self = true →
  (score self' <? score self)%f32 = false.
Proof.
  intros (_ & [[Hw ->] | (_ & _ & _ & ->)])%Update_Ok_cases Hact.
  - apply wins_spec in Hw as [Hw | Hw]; [congruence |].
    by apply F32_ltb_asym.
  - apply F32_ltb_irrefl.
Qed.

(** An instance: the token [entered], score 0, offered [ln 0.5]. *)
Lemma Update_never_lowers_witness :
  ∃ self',
    Token.Update Scenario.entered Scenario.entered 7 true false
      Scenario.neg_ln2 = Ok self'
    ∧ (score self' <? score Scenario.entered)%f32 = false.
Proof.
  eexists. split; [reflexivity |].
  eapply (Update_never_lowers Scenario.entered Scenario.entered 7 true false
            Scenario.neg_ln2); reflexivity.
Defined.

Lemma Update_Ok_is_filler self prev olabel is_self_arc filler am_score self' :
  Token.Update self prev olabel is_self_arc filler am_score = Ok self' →
  is_filler self' = filler.
Proof.
  unfold Token.Update. intros Hup.
  by apply bind_Ok in Hup as (tok & _ & [= <-]).
Qed.

Section Order.

Context (fst_ : Fst) (filler_table_ : SymbolTable).
Context (logf : F32.t → F32.t).

Local Abbreviation pass_arc := (pass_arc filler_table_ logf).
Local Abbreviation pass_arcs := (pass_arcs filler_table_ logf).
Local Abbreviation pass_from := (pass_from fst_ filler_table_ logf).
Local Abbreviation pass_all := (pass_all filler_table_ logf).
Local Abbreviation propagate := (propagate fst_ filler_table_ logf).
Local Abbreviation schedule := (schedule fst_).

Lemma pass_all_app am_score num passes1 passes2 cur :
  pass_all am_score num (passes1 ++ passes2) cur =
  pass_all am_score num passes1 cur ≫= pass_all am_score num passes2.
Proof.
  revert cur. induction passes1 as [| [[i prev] arc] rest IH]; intros cur;
    simpl; [done |].
  destruct (pass_arc am_score num i prev cur arc); simpl; [apply IH | done | done].
Qed.

Lemma pass_arcs_pass_all am_score num i prev arcs cur :
  pass_arcs am_score num i prev arcs cur =
  pass_all am_score num ((λ arc, (i, prev, arc)) <$> arcs) cur.
Proof.
  revert cur. induction arcs as [| arc rest IH]; intros cur; simpl; [done |].
  destruct (pass_arc am_score num i prev cur arc); simpl; [apply IH | done | done].
Qed.

(** The first loop of [Spot] passes the arcs of the schedule in order. *)
Lemma pass_from_schedule am_score num i prevs cur :
  pass_from am_score num i prevs cur =
  pass_all am_score num (schedule i prevs) cur.
Proof.
  revert i cur. induction prevs as [| prev rest IH]; intros i cur; simpl;
    [done |].
  rewrite pass_all_app. destruct (active prev).
  - rewrite <- pass_arcs_pass_all.
    destruct (pass_arcs am_score num i prev (Arcs fst_ i) cur); simpl;
      [apply IH | done | done].
  - simpl. apply IH.
Qed.

(** Arcs into other states leave a state as it is. *)
Lemma pass_all_other am_score num passes cur cur' j :
  Forall (λ p, Z.to_nat (next_state p.2) ≠ j) passes →
  pass_all am_score num passes cur = Ok cur' →
  cur' !! j = cur !! j.
Proof.
  revert cur. induction passes as [| [[i prev] arc] rest IH];
    intros cur Hother H; simpl in H.
  - by injection H as <-.
  - apply Forall_cons in Hother as [Hne Hrest]. simpl in Hne.
    apply bind_Ok in H as (cur1 & Hcur1 & H).
    rewrite (IH _ Hrest H).
    apply pass_arc_checked in Hcur1
      as (_ & _ & x & self & self' & _ & _ & _ & _ & ->).
    by rewrite list_lookup_insert_ne.
Qed.

(** X17. After a propagation that returns, the flag [is_filler] of a state
    is the classification of the last arc that the loops of [Spot] passed
    into it, whether that arc set the score of the state or lost against
    it. *)
Theorem propagate_is_filler_last d am_score num cur' before i prev arc after :
  propagate d am_score num = Ok cur' →
  schedule 0 (prev_tokens_ d) = before ++ (i, prev, arc) :: after →
  Forall (λ p, Z.to_nat (next_state p.2) ≠ Z.to_nat (next_state arc)) after →
  ∃ tok,
    cur' !! Z.to_nat (next_state arc) = Some tok
    ∧ active tok = true
    ∧ is_filler tok = IsFillerPhone filler_table_ (ilabel arc).
Proof.
  unfold propagate. rewrite pass_from_schedule. intros Hprop Hsched Hafter.
  rewrite Hsched, pass_all_app in Hprop.
  apply bind_Ok in Hprop as (cur1 & _ & Hprop). simpl in Hprop.
  apply bind_Ok in Hprop as (cur2 & Hpass & Hprop).
  rewrite (pass_all_other _ _ _ _ _ _ Hafter Hprop).
  apply pass_arc_checked in Hpass
    as (_ & _ & x & self & self' & _ & _ & Hself & Hup & ->).
  exists self'. rewrite list_lookup_insert_eq by by eapply lookup_lt_Some.
  split; [done |].
  split; [by apply Update_Ok_cases in Hup as [? _] |].
  by eapply Update_Ok_is_filler.
Qed.

(** A token that no later arc into its state strictly beats keeps its
    score and its statistics while those arcs are passed. *)
Lemma pass_all_keeps_unbeaten am_score num passes cur cur' j tok :
  pass_all am_score num passes cur = Ok cur' →
  cur !! j = Some tok → active tok = true →
  Forall (λ p, Z.to_nat (next_state p.2) = j →
               ∀ x, arc_score logf am_score p.2 = Some x →
                    (score tok <? score p.1.2 + x)%f32 = false) passes →
  ∃ tok', cur' !! j = Some tok' ∧ active tok' = true
          ∧ score tok' = score tok
          ∧ keyword_stats tok' = keyword_stats tok.
Proof.
  revert cur tok. induction passes as [| [[i prev] arc] rest IH];
    intros cur tok H Htok Hact Hlater; simpl in H.
  - injection H as <-. by exists tok.
  - apply Forall_cons in Hlater as [Hthis Hrest]. simpl in Hthis.
    apply bind_Ok in H as (cur1 & Hcur1 & H).
    apply pass_arc_checked in Hcur1
      as (_ & _ & x & self & self' & _ & Hx & Hself & Hup & ->).
    destruct (decide (Z.to_nat (next_state arc) = j)) as [Hj |].
    + rewrite Hj in *. rewrite Hself in Htok. injection Htok as ->.
      specialize (Hthis eq_refl _ Hx).
      rewrite Update_lost in Hup by by apply wins_false.
      injection Hup as <-.
      destruct (IH _ (Token.mark tok (IsFillerPhone filler_table_ (ilabel arc)))
                  H) as (tok' & Htok' & Hact' & Hs & Hk); [| done | done |].
      * apply list_lookup_insert_eq. by eapply lookup_lt_Some.
      * by exists tok'.
    + apply (IH _ tok H); [| done | done].
      by rewrite list_lookup_insert_ne.
Qed.

(** X19. The first arc to reach a score wins the ties of the frame: when
    the loops of [Spot] have left a state active with some score, and no
    arc that they pass into it afterwards offers a strictly greater score,
    the state ends the propagation with that score and with the keyword
    statistics it had, those of the earlier arc. *)
Theorem propagate_first_wins_ties d am_score num cur' before after cur1 j tok :
  propagate d am_score num = Ok cur' →
  schedule 0 (prev_tokens_ d) = before ++ after →
  pass_all am_score num before (cur_tokens_ d) = Ok cur1 →
  cur1 !! j = Some tok → active tok = true →
  Forall (λ p, Z.to_nat (next_state p.2) = j →
               ∀ x, arc_score logf am_score p.2 = Some x →
                    (score tok <? score p.1.2 + x)%f32 = false) after →
  ∃ tok', cur' !! j = Some tok' ∧ active tok' = true
          ∧ score tok' = score tok
          ∧ keyword_stats tok' = keyword_stats tok.
Proof.
  unfold propagate. rewrite pass_from_schedule.
  intros Hprop Hsched Hbefore Htok Hact Hafter.
  rewrite Hsched, pass_all_app, Hbefore in Hprop. simpl in Hprop.
  by eapply pass_all_keeps_unbeaten.
Qed.

End Order.

(** An instance: in the first frame on [keyword_fst] the loop on the filler
    phone is the last arc into state 0. *)
Lemma propagate_is_filler_last_witness :
  ∃ tok,
    prev_tokens_ Scenario.after_phone2 !! Z.to_nat (next_state (mkArc 1 0 0))
    = Some tok
    ∧ active tok = true
    ∧ is_filler tok
      = IsFillerPhone Scenario.filler_table (ilabel (mkArc 1 0 0)).
Proof.
  apply (propagate_is_filler_last Scenario.keyword_fst Scenario.filler_table
           Scenario.logf Scenario.keyword_decoder Scenario.phone2.1
           Scenario.phone2.2 _ [] 0%nat (activate Token.new) (mkArc 1 0 0)
           [(0%nat, activate Token.new, mkArc 2 0 1)]).
  - exact propagate_phone2.
  - reflexivity.
  - repeat constructor. simpl. lia.
Defined.

(** An instance: two arcs into state 1 offer the same score; the keyword 5
    of the first one stays. *)
Lemma propagate_first_wins_ties_witness :
  ∃ tok',
    [Token.new; Scenario.first_arrival] !! 1%nat = Some tok'
    ∧ active tok' = true
    ∧ score tok' = score Scenario.first_arrival
    ∧ keyword_stats tok' = keyword_stats Scenario.first_arrival.
Proof.
  apply (propagate_first_wins_ties Scenario.parallel_fst Scenario.filler_table
           Scenario.logf (armed 1 F32.half 0 5) Scenario.all_ones.1
           Scenario.all_ones.2 [Token.new; Scenario.first_arrival]
           [(0%nat, activate Token.new, mkArc 2 5 1)]
           [(0%nat, activate Token.new, mkArc 3 7 1)]
           [Token.new; Scenario.first_arrival] 1 Scenario.first_arrival).
  - vm_compute. reflexivity.
  - reflexivity.
  - vm_compute. reflexivity.
  - reflexivity.
  - reflexivity.
  - repeat constructor. simpl. intros _ x [= <-]. reflexivity.
Defined.
